(** * Agent Data Pod interactive scripts (script.js): a shallow embedding

    The script wires browser observers to DOM elements.  The embedding keeps
    the shape of the source: the page is a store of elements addressed by
    handle, every function of the script is a computation in a small
    state-and-exception monad over that store, and the two
    IntersectionObserver callbacks are closures kept in the store of
    observers, run when the host delivers a batch of entries. *)

From Stdlib Require Import ZArith Ascii String PrimFloat.
From stdpp Require Import base option list strings gmap.

Set Default Proof Using "Type".
#[local] Set Warnings "-inexact-float".
Open Scope string_scope.
Open Scope list_scope.

(** ** The page *)

(** An element, as far as the script looks at it: its tag, its parent, its
    attributes, and its class list (the token list behind [el.classList]). *)
Record Element := mkElement {
  tagName : string;
  parentNode : option nat;
  attributes : gmap string string;
  classList : list string
}.

(** One entry of a batch handed to an IntersectionObserver callback. *)
Record Entry := mkEntry {
  target : nat;
  isIntersecting : bool
}.

(** The two callbacks of the script, as closures.  [TOCCallback] captures
    the static node list [tocLinks] of initTOC; the callback of
    initRevealAnimations captures nothing. *)
Inductive Callback :=
| TOCCallback (tocLinks : list nat)
| RevealCallback.

(** A length of a root margin. *)
Inductive Length :=
| Px (n : Z)
| Percent (n : Z).

Record Margins := mkMargins {
  marginTop : Length;
  marginRight : Length;
  marginBottom : Length;
  marginLeft : Length
}.

(** The options object given to [new IntersectionObserver]. *)
Record ObserverInit := mkInit {
  rootMargin : option string;
  threshold : option float
}.

Record IntersectionObserver := mkObserver {
  callback : Callback;
  margins : Margins;
  thresholds : list float;
  targets : list nat
}.

(** The state of the page: elements in document order (the index is the
    element's handle), the observers created so far, the media queries that
    currently match, and the origin's storage area ([None] when the browser
    denies access to it). *)
Record World := mkWorld {
  dom : list Element;
  observers : list IntersectionObserver;
  matchingMedia : list string;
  storageArea : option (gmap string string)
}.

Definition set_dom (f : list Element → list Element) (w : World) : World :=
  mkWorld (f (dom w)) (observers w) (matchingMedia w) (storageArea w).

Definition set_observers
    (f : list IntersectionObserver → list IntersectionObserver) (w : World) : World :=
  mkWorld (dom w) (f (observers w)) (matchingMedia w) (storageArea w).

Definition set_storageArea
    (f : option (gmap string string) → option (gmap string string)) (w : World) : World :=
  mkWorld (dom w) (observers w) (matchingMedia w) (f (storageArea w)).

(** ** Computations *)

Inductive Exn :=
| TypeError
| SyntaxError
| RangeError
| DOMException (name : string).

Inductive Completion (A : Type) :=
| Normal (a : A)
| Throw (e : Exn).
Arguments Normal {A} a.
Arguments Throw {A} e.

Definition JS (A : Type) : Type := World → Completion A * World.

#[global] Instance JS_ret : MRet JS := λ A a w, (Normal a, w).

#[global] Instance JS_bind : MBind JS := λ A B f m w,
  match m w with
  | (Normal a, w') => f a w'
  | (Throw e, w') => (Throw e, w')
  end.

Definition throw {A} (e : Exn) : JS A := λ w, (Throw e, w).

(** Reading and updating the state. *)
Definition gets {A} (f : World → A) : JS A := λ w, (Normal (f w), w).

Definition modify (f : World → World) : JS unit := λ w, (Normal tt, f w).

(** [try { m } catch { h }] *)
Definition try_catch {A} (m : JS A) (h : Exn → JS A) : JS A := λ w,
  match m w with
  | (Normal a, w') => (Normal a, w')
  | (Throw e, w') => h e w'
  end.

(** A statement that does nothing, and the bare [return;]. *)
Definition skip : JS unit := mret tt.

(** [xs.forEach(f)] *)
Fixpoint forEach {A} (f : A → JS unit) (xs : list A) : JS unit :=
  match xs with
  | [] => skip
  | x :: xs' => f x ;; forEach f xs'
  end.

Definition completes {A} (m : JS A) (w : World) : Prop :=
  ∃ a w', m w = (Normal a, w').

(** ** Storage wrapper (script.js, lines 10-25) *)

Section Storage.

(** The host's [localStorage.getItem] and [localStorage.setItem]; either
    may throw. *)
Variable localStorage_getItem : string → JS (option string).
Variable localStorage_setItem : string → string → JS unit.

Definition storage_get (key : string) : JS (option string) :=
  try_catch (localStorage_getItem key) (λ _, mret None).

Definition storage_set (key value : string) : JS unit :=
  try_catch (localStorage_setItem key value) (λ _, mret tt).

End Storage.

(** A Web Storage host: every access throws a SecurityError when the storage
    area is denied. *)
Definition host_getItem (key : string) : JS (option string) :=
  area ← gets storageArea;
  match area with
  | Some items => mret (items !! key)
  | None => throw (DOMException "SecurityError")
  end.

Definition host_setItem (key value : string) : JS unit :=
  area ← gets storageArea;
  match area with
  | Some items => modify (set_storageArea (λ _, Some (<[key := value]> items)))
  | None => throw (DOMException "SecurityError")
  end.

(** ** DOM operations used by the script *)

(** Reading a property of an element reference.  Handles produced by the
    queries below always denote an element; a handle outside the store
    behaves like a property access on [undefined]. *)
Definition getElement (n : nat) : JS Element :=
  d ← gets dom;
  match d !! n with
  | Some e => mret e
  | None => throw TypeError
  end.

Definition updateElement (n : nat) (f : Element → Element) : JS unit :=
  e ← getElement n;
  modify (set_dom (λ d, <[n := f e]> d)).

Definition with_attributes (f : gmap string string → gmap string string)
    (e : Element) : Element :=
  mkElement (tagName e) (parentNode e) (f (attributes e)) (classList e).

Definition with_classList (f : list string → list string) (e : Element) : Element :=
  mkElement (tagName e) (parentNode e) (attributes e) (f (classList e)).

(** [el.getAttribute(name)]: [None] is JavaScript's [null]. *)
Definition getAttribute (n : nat) (name : string) : JS (option string) :=
  e ← getElement n; mret (attributes e !! name).

(** [el.setAttribute(name, value)] *)
Definition setAttribute (n : nat) (name value : string) : JS unit :=
  updateElement n (with_attributes (λ a, <[name := value]> a)).

(** [el.removeAttribute(name)] *)
Definition removeAttribute (n : nat) (name : string) : JS unit :=
  updateElement n (with_attributes (λ a, delete name a)).

(** [el.id]: the id attribute, the empty string when there is none. *)
Definition element_id (n : nat) : JS string :=
  e ← getElement n; mret (default "" (attributes e !! "id")).

Definition token_add (tok : string) (toks : list string) : list string :=
  if bool_decide (tok ∈ toks) then toks else toks ++ [tok].

Definition token_remove (tok : string) (toks : list string) : list string :=
  filter (λ t, t ≠ tok) toks.

(** [el.classList.add(token)] *)
Definition classList_add (n : nat) (tok : string) : JS unit :=
  updateElement n (with_classList (token_add tok)).

(** [el.classList.toggle(token, force)]: with [force] given, the token is
    added when [force] is true and removed otherwise; the result is [force]. *)
Definition classList_toggle (n : nat) (tok : string) (force : bool) : JS bool :=
  updateElement n (with_classList (if force then token_add tok else token_remove tok)) ;;
  mret force.

(** The selectors of the script, already parsed: a selector list is a
    disjunction of compound selectors, a compound selector a conjunction of
    simple ones. *)
Inductive Simple :=
| SelTag (tag : string)
| SelClass (cls : string)
| SelHasAttr (name : string).

Definition matches_simple (e : Element) (s : Simple) : bool :=
  match s with
  | SelTag t => bool_decide (tagName e = t)
  | SelClass c => bool_decide (c ∈ classList e)
  | SelHasAttr a => bool_decide (is_Some (attributes e !! a))
  end.

Definition matches_selector (sel : list (list Simple)) (e : Element) : bool :=
  existsb (forallb (matches_simple e)) sel.

(** ['h2[id], h3[id]'] *)
Definition sel_headings : list (list Simple) :=
  [[SelTag "h2"; SelHasAttr "id"]; [SelTag "h3"; SelHasAttr "id"]].

(** ['a'] *)
Definition sel_anchors : list (list Simple) := [[SelTag "a"]].

(** ['.reveal, .stagger'] *)
Definition sel_reveal : list (list Simple) := [[SelClass "reveal"]; [SelClass "stagger"]].

Definition satisfies (p : nat → Element → bool) (d : list Element) (n : nat) : bool :=
  match d !! n with
  | Some e => p n e
  | None => false
  end.

(** The handles of [d], in document order, whose element satisfies [p]. *)
Definition handles_where (p : nat → Element → bool) (d : list Element) : list nat :=
  filter (λ n, satisfies p d n) (seq 0 (length d)).

(** [anc] is a proper ancestor of [n]: the parent chain of [n], which is no
    longer than the page has elements, reaches [anc]. *)
Fixpoint has_ancestor (fuel : nat) (d : list Element) (anc n : nat) : bool :=
  match fuel with
  | 0 => false
  | S fuel' =>
    match d !! n ≫= parentNode with
    | Some p => bool_decide (p = anc) || has_ancestor fuel' d anc p
    | None => false
    end
  end.

(** [document.getElementById(id)]: the first element in document order with
    that id, [None] (null) when there is none. *)
Definition find_by_id (d : list Element) (id : string) : option nat :=
  head (handles_where (λ _ e, bool_decide (attributes e !! "id" = Some id)) d).

Definition getElementById (id : string) : JS (option nat) :=
  d ← gets dom;
  mret (find_by_id d id).

(** [document.querySelectorAll(sel)]: a static list in document order. *)
Definition select (d : list Element) (sel : list (list Simple)) : list nat :=
  handles_where (λ _ e, matches_selector sel e) d.

Definition document_querySelectorAll (sel : list (list Simple)) : JS (list nat) :=
  d ← gets dom;
  mret (select d sel).

(** [root.querySelectorAll(sel)]: the descendants of [root] matching [sel]. *)
Definition select_within (d : list Element) (root : nat) (sel : list (list Simple)) : list nat :=
  handles_where (λ n e, has_ancestor (length d) d root n && matches_selector sel e) d.

Definition element_querySelectorAll (root : nat) (sel : list (list Simple)) : JS (list nat) :=
  getElement root ;;
  d ← gets dom;
  mret (select_within d root sel).

(** [window.matchMedia(query).matches] *)
Definition matchMedia_matches (query : string) : JS bool :=
  media ← gets matchingMedia;
  mret (bool_decide (query ∈ media)).

(** ** The host's IntersectionObserver *)

Definition is_digit (c : ascii) : bool :=
  (48 <=? nat_of_ascii c)%nat && (nat_of_ascii c <=? 57)%nat.

Definition digit_value (c : ascii) : Z := Z.of_nat (nat_of_ascii c - 48).

(** The digits at the start of [s], read in base ten, and the rest of [s]. *)
Fixpoint parse_digits (acc : Z) (s : string) : Z * string :=
  match s with
  | String c s' =>
    if is_digit c then parse_digits (10 * acc + digit_value c)%Z s' else (acc, s)
  | EmptyString => (acc, s)
  end.

(** One component of a root margin: a signed whole number followed by [px]
    or [%].  (Fractional lengths are not needed for the margins of the
    script and are rejected here.) *)
Definition parse_length (tok : string) : option Length :=
  let '(negative, body) :=
    match tok with
    | String "-" rest => (true, rest)
    | String "+" rest => (false, rest)
    | _ => (false, tok)
    end in
  match body with
  | String c _ =>
    if is_digit c then
      let '(n, unit) := parse_digits 0 body in
      let v := if negative then (- n)%Z else n in
      if bool_decide (unit = "px") then Some (Px v)
      else if bool_decide (unit = "%") then Some (Percent v)
      else None
    else None
  | EmptyString => None
  end.

(** The space-separated tokens of [s]; [cur] is the token being read,
    reversed. *)
Fixpoint tokens_from (cur : list ascii) (s : string) : list string :=
  let flush := match cur with [] => [] | _ => [string_of_list_ascii (rev cur)] end in
  match s with
  | EmptyString => flush
  | String c s' =>
    if bool_decide (c = " "%char) then flush ++ tokens_from [] s'
    else tokens_from (c :: cur) s'
  end.

(** Root margins follow the CSS margin shorthand: one to four lengths, for
    top, right, bottom and left. *)
Definition parse_rootMargin (s : string) : option Margins :=
  ls ← mapM parse_length (tokens_from [] s);
  match ls with
  | [] => Some (mkMargins (Px 0) (Px 0) (Px 0) (Px 0))
  | [a] => Some (mkMargins a a a a)
  | [a; b] => Some (mkMargins a b a b)
  | [a; b; c] => Some (mkMargins a b c b)
  | [a; b; c; d] => Some (mkMargins a b c d)
  | _ => None
  end.

Definition valid_threshold (t : float) : bool :=
  (PrimFloat.leb 0 t && PrimFloat.leb t 1)%bool.

(** [new IntersectionObserver(callback, init)]: a SyntaxError for a root
    margin that does not parse, a RangeError for a threshold outside [0,1];
    otherwise a new observer with no targets.  The result is the observer's
    handle. *)
Definition new_IntersectionObserver (cb : Callback) (init : ObserverInit) : JS nat :=
  match parse_rootMargin (default "0px" (rootMargin init)) with
  | None => throw SyntaxError
  | Some m =>
    let ts := match threshold init with Some t => [t] | None => [0%float] end in
    if forallb valid_threshold ts then
      os ← gets observers;
      modify (set_observers (λ os, os ++ [mkObserver cb m ts []])) ;;
      mret (length os)
    else throw RangeError
  end.

Definition add_target (t : nat) (o : IntersectionObserver) : IntersectionObserver :=
  mkObserver (callback o) (margins o) (thresholds o)
             (if bool_decide (t ∈ targets o) then targets o else targets o ++ [t]).

(** [observer.observe(target)]: registers the element, unless it is
    registered already. *)
Definition observe (obs : nat) (t : nat) : JS unit :=
  getElement t ;;
  os ← gets observers;
  match os !! obs with
  | Some o => modify (set_observers (λ os, <[obs := add_target t o]> os))
  | None => throw TypeError
  end.

(** ** Active TOC highlighting (script.js, lines 208-234) *)

(** The body of [tocLinks.forEach(link => ...)] for one entry. *)
Definition toc_update_link (entry : Entry) (link : nat) : JS unit :=
  href ← getAttribute link "href";
  id ← element_id (target entry);
  let isActive := bool_decide (href = Some ("#" +:+ id)) in
  classList_toggle link "active" isActive ;;
  if isActive then setAttribute link "aria-current" "true"
  else removeAttribute link "aria-current".

(** The body of [entries.forEach(entry => ...)]. *)
Definition toc_entry (tocLinks : list nat) (entry : Entry) : JS unit :=
  if isIntersecting entry then forEach (toc_update_link entry) tocLinks
  else skip.

Definition toc_callback (tocLinks : list nat) (entries : list Entry) : JS unit :=
  forEach (toc_entry tocLinks) entries.

Definition toc_init : ObserverInit := mkInit (Some "-20% 0% -80% 0%") None.

Definition initTOC : JS unit :=
  toc ← getElementById "toc";
  match toc with
  | None => skip
  | Some toc =>
    headings ← document_querySelectorAll sel_headings;
    tocLinks ← element_querySelectorAll toc sel_anchors;
    if bool_decide (length headings = 0) then skip
    else
      observer ← new_IntersectionObserver (TOCCallback tocLinks) toc_init;
      forEach (λ h, observe observer h) headings
  end.

(** ** Reveal on scroll (script.js, lines 240-260) *)

Definition reveal_entry (entry : Entry) : JS unit :=
  if isIntersecting entry then classList_add (target entry) "visible"
  else skip.

Definition reveal_callback (entries : list Entry) : JS unit :=
  forEach reveal_entry entries.

Definition reveal_init : ObserverInit :=
  mkInit (Some "0px 0px -50px 0px") (Some 0.1%float).

Definition initRevealAnimations : JS unit :=
  elements ← document_querySelectorAll sel_reveal;
  if bool_decide (length elements = 0) then skip
  else
    reduce ← matchMedia_matches "(prefers-reduced-motion: reduce)";
    if (reduce : bool) then forEach (λ el, classList_add el "visible") elements
    else
      observer ← new_IntersectionObserver RevealCallback reveal_init;
      forEach (λ el, observe observer el) elements.

(** ** Delivery of notifications by the host *)

Definition run_callback (cb : Callback) (entries : list Entry) : JS unit :=
  match cb with
  | TOCCallback tocLinks => toc_callback tocLinks entries
  | RevealCallback => reveal_callback entries
  end.

(** The host invokes the callback of observer [obs] with one batch. *)
Definition deliver (obs : nat) (entries : list Entry) : JS unit :=
  os ← gets observers;
  match os !! obs with
  | Some o => run_callback (callback o) entries
  | None => throw TypeError
  end.

(** The host delivers a sequence of batches to one callback, one
    invocation per batch. *)
Definition deliver_all (cb : Callback) (batches : list (list Entry)) : JS unit :=
  forEach (run_callback cb) batches.

(** ** The root intersection rectangle *)

(** Vertical positions are measured downwards from the top edge of the
    viewport, in hundredths of a pixel, so that percentages of the viewport
    height [h] (in pixels) need no division. *)
Definition resolve (l : Length) (h : Z) : Z :=
  match l with
  | Px n => 100 * n
  | Percent p => p * h
  end.

(** A positive margin grows the rectangle, a negative one shrinks it. *)
Definition root_top (m : Margins) (h : Z) : Z := (- resolve (marginTop m) h)%Z.

Definition root_bottom (m : Margins) (h : Z) : Z := (100 * h + resolve (marginBottom m) h)%Z.

(** A target whose box spans [top, bottom] (in pixels) meets the root
    rectangle; touching edges count. *)
Definition meets_root (m : Margins) (h top bottom : Z) : bool :=
  (root_top m h <=? 100 * bottom)%Z && (100 * top <=? root_bottom m h)%Z.

(** ** Observations of the page, for the statements below *)

Definition attr (w : World) (n : nat) (name : string) : option string :=
  dom w !! n ≫= λ e, attributes e !! name.

Definition has_class (w : World) (n : nat) (tok : string) : bool :=
  match dom w !! n with
  | Some e => bool_decide (tok ∈ classList e)
  | None => false
  end.

Definition is_element (w : World) (n : nat) : Prop := n < length (dom w).

(** The target of the last intersecting entry, if any. *)
Definition last_intersecting (entries : list Entry) : option nat :=
  target <$> last (filter (λ e, isIntersecting e = true) entries).

(** What [toc_update_link] compares the href of a link with, for an entry
    whose target is [h]: the hash sign followed by the id of [h]. *)
Definition fragment_of (w : World) (h : nat) : string :=
  "#" +:+ default "" (attr w h "id").

(** A link is in step with the fragment [frag]: it is marked exactly when
    its href is [frag], and carries aria-current (with value true) exactly
    then. *)
Definition in_step (frag : string) (w : World) (link : nat) : Prop :=
  (has_class w link "active" = true ↔ attr w link "href" = Some frag) ∧
  (attr w link "aria-current" = Some "true" ↔ attr w link "href" = Some frag) ∧
  (attr w link "href" ≠ Some frag → attr w link "aria-current" = None).

(** No two links of the list point to the same fragment. *)
Definition distinct_hrefs (w : World) (links : list nat) : Prop :=
  ∀ l1 l2 frag, l1 ∈ links → l2 ∈ links →
    attr w l1 "href" = Some frag → attr w l2 "href" = Some frag → l1 = l2.

Definition at_most_one_active (w : World) (links : list nat) : Prop :=
  ∀ l1 l2, l1 ∈ links → l2 ∈ links →
    has_class w l1 "active" = true → has_class w l2 "active" = true → l1 = l2.

(** What the callbacks leave alone: the observers, the media, the storage
    area, the number of elements, and every attribute except aria-current. *)
Definition stable (w0 w : World) : Prop :=
  observers w = observers w0 ∧ matchingMedia w = matchingMedia w0 ∧
  storageArea w = storageArea w0 ∧ length (dom w) = length (dom w0) ∧
  ∀ n name, name ≠ "aria-current" → attr w n name = attr w0 n name.

(** The link element [e] after one pass of [toc_update_link] against the
    fragment [frag]. *)
Definition link_after (frag : string) (e : Element) : Element :=
  if bool_decide (attributes e !! "href" = Some frag)
  then with_attributes (λ a, <["aria-current" := "true"]> a)
         (with_classList (token_add "active") e)
  else with_attributes (λ a, delete "aria-current" a)
         (with_classList (token_remove "active") e).

(** ** Sample pages *)

(** A table of contents with links to sections a, b and c (the first one
    marked active in the markup), the three headings, a heading that the
    table does not list, and two revealable blocks (elements 4 and 7). *)
Definition sample_world : World :=
  mkWorld
    [ mkElement "nav" None {[ "id" := "toc" ]} [];
      mkElement "a" (Some 0) {[ "href" := "#a" ]} ["active"];
      mkElement "a" (Some 0) {[ "href" := "#b" ]} [];
      mkElement "a" (Some 0) {[ "href" := "#c" ]} [];
      mkElement "h2" None {[ "id" := "a" ]} ["reveal"];
      mkElement "h3" None {[ "id" := "b" ]} [];
      mkElement "h2" None {[ "id" := "c" ]} [];
      mkElement "div" None ∅ ["stagger"];
      mkElement "h2" None {[ "id" := "notes" ]} [] ]
    [] [] None.

(** A table of contents that lists section a twice. *)
Definition twice_world : World :=
  mkWorld
    [ mkElement "nav" None {[ "id" := "toc" ]} [];
      mkElement "a" (Some 0) {[ "href" := "#a" ]} [];
      mkElement "a" (Some 0) {[ "href" := "#a" ]} [];
      mkElement "h2" None {[ "id" := "a" ]} [] ]
    [] [] None.

(** The page [w] for a user who asked for reduced motion. *)
Definition reduced (w : World) : World :=
  mkWorld (dom w) (observers w) ["(prefers-reduced-motion: reduce)"] (storageArea w).

(** ** Events, handlers and listeners *)

(** An event, as far as the handlers of the script read it: the target of a
    click or key press, the key of a key press, and the [matches] flag of a
    media query change. *)
Record Event := mkEvent {
  evTarget : nat;
  evKey : string;
  evMatches : bool
}.

(** What a handler asks of the host beyond the page: [e.preventDefault()]
    and [el.focus()]. *)
Inductive HostEffect :=
| PreventDefault
| Focus (n : nat).

Inductive EventTarget :=
| OnElement (n : nat)
| OnDocument
| OnMedia (query : string).

(** The handlers of initTheme and initNavigation, as closures over the
    element references they capture. *)
Inductive Handler :=
| ThemeClick (toggle html : nat)
| ThemeKeydown (toggle html : nat)
| ThemeSystemChange (toggle : option nat) (html : nat)
| NavToggleClick (toggle links : nat)
| NavDocumentClick (toggle links : nat)
| NavDocumentKeydown (toggle links : nat)
| NavLinkClick (toggle links : nat).

(** One [target.addEventListener(type, handler)].  The host's table of
    listeners is not part of [World]: a function of the script that
    registers listeners returns them, in the order of registration. *)
Record Listener := mkListener {
  onTarget : EventTarget;
  onType : string;
  handler : Handler
}.

(** ** More DOM operations *)

(** [document.documentElement]: the root element, first in document order. *)
Definition documentElement : nat := 0.

(** [el.dataset[name]] for a lower-case [name]: the attribute data-name. *)
Definition dataset_get (n : nat) (name : string) : JS (option string) :=
  getAttribute n ("data-" +:+ name).

Definition dataset_set (n : nat) (name value : string) : JS unit :=
  setAttribute n ("data-" +:+ name) value.

(** [el.classList.remove(token)] *)
Definition classList_remove (n : nat) (tok : string) : JS unit :=
  updateElement n (with_classList (token_remove tok)).

(** [el.classList.contains(token)] *)
Definition classList_contains (n : nat) (tok : string) : JS bool :=
  e ← getElement n; mret (bool_decide (tok ∈ classList e)).

(** [root.contains(other)]: [other] is [root] or one of its descendants. *)
Definition element_contains (root other : nat) : JS bool :=
  getElement root ;;
  d ← gets dom;
  mret (bool_decide (root = other) || has_ancestor (length d) d root other).

(** [root.querySelector(sel)]: the first match, [None] (null) without one. *)
Definition element_querySelector (root : nat) (sel : list (list Simple)) : JS (option nat) :=
  found ← element_querySelectorAll root sel;
  mret (head found).

(** The truthiness of a string or null: null and the empty string are falsy. *)
Definition truthy (s : option string) : bool :=
  match s with
  | Some s => negb (bool_decide (s = ""))
  | None => false
  end.

(** The string that [setAttribute] stores for a boolean value. *)
Definition string_of_bool (b : bool) : string := if b then "true" else "false".

(** ** Theme toggle (script.js, lines 31-77) *)

(** The script's [storage] object over the browser's localStorage. *)
Definition theme_saved : JS (option string) := storage_get host_getItem "theme".

Definition updateToggleState (toggle : option nat) (html : nat) : JS unit :=
  match toggle with
  | Some t =>
    theme ← dataset_get html "theme";
    setAttribute t "aria-pressed" (string_of_bool (bool_decide (theme = Some "dark")))
  | None => skip
  end.

Definition toggleTheme (toggle html : nat) : JS unit :=
  theme ← dataset_get html "theme";
  let next := if bool_decide (theme = Some "dark") then "light" else "dark" in
  dataset_set html "theme" next ;;
  storage_set host_setItem "theme" next ;;
  updateToggleState (Some toggle) html.

Definition theme_keydown (toggle html : nat) (e : Event) : JS (list HostEffect) :=
  if bool_decide (evKey e = "Enter") || bool_decide (evKey e = " ")
  then toggleTheme toggle html ;; mret [PreventDefault]
  else mret [].

Definition theme_system_change (toggle : option nat) (html : nat) (e : Event)
    : JS (list HostEffect) :=
  saved ← theme_saved;
  if negb (truthy saved) then
    dataset_set html "theme" (if evMatches e then "dark" else "light") ;;
    updateToggleState toggle html ;;
    mret []
  else mret [].

Definition initTheme : JS (list Listener) :=
  toggle ← getElementById "theme-toggle";
  let html := documentElement in
  saved ← theme_saved;
  (if truthy saved then dataset_set html "theme" (default "" saved)
   else
     dark ← matchMedia_matches "(prefers-color-scheme: dark)";
     if (dark : bool) then dataset_set html "theme" "dark" else skip) ;;
  updateToggleState toggle html ;;
  mret (match toggle with
        | Some t => [mkListener (OnElement t) "click" (ThemeClick t html);
                     mkListener (OnElement t) "keydown" (ThemeKeydown t html)]
        | None => []
        end ++
        [mkListener (OnMedia "(prefers-color-scheme: dark)") "change"
                    (ThemeSystemChange toggle html)]).

(** ** Mobile navigation toggle (script.js, lines 83-127) *)

Definition openMenu (toggle links : nat) : JS unit :=
  classList_add links "open" ;;
  setAttribute toggle "aria-expanded" "true".

Definition closeMenu (toggle links : nat) : JS unit :=
  classList_remove links "open" ;;
  setAttribute toggle "aria-expanded" "false".

Definition nav_toggle_click (toggle links : nat) : JS unit :=
  isOpen ← classList_contains links "open";
  if (isOpen : bool) then closeMenu toggle links else openMenu toggle links.

Definition nav_document_click (toggle links : nat) (e : Event) : JS unit :=
  inToggle ← element_contains toggle (evTarget e);
  if negb inToggle then
    inLinks ← element_contains links (evTarget e);
    if negb inLinks then closeMenu toggle links else skip
  else skip.

Definition nav_document_keydown (toggle links : nat) (e : Event) : JS (list HostEffect) :=
  if bool_decide (evKey e = "Escape") then
    isOpen ← classList_contains links "open";
    if (isOpen : bool) then closeMenu toggle links ;; mret [Focus toggle]
    else mret []
  else mret [].

Definition initNavigation : JS (list Listener) :=
  toggle ← getElementById "nav-toggle";
  links ← getElementById "nav-links";
  match toggle, links with
  | Some t, Some l =>
    anchors ← element_querySelectorAll l sel_anchors;
    mret ([mkListener (OnElement t) "click" (NavToggleClick t l);
           mkListener OnDocument "click" (NavDocumentClick t l);
           mkListener OnDocument "keydown" (NavDocumentKeydown t l)] ++
          ((λ a, mkListener (OnElement a) "click" (NavLinkClick t l)) <$> anchors))
  | _, _ => mret []
  end.

(** The host runs a handler for an event. *)
Definition run_handler (h : Handler) (e : Event) : JS (list HostEffect) :=
  match h with
  | ThemeClick toggle html => toggleTheme toggle html ;; mret []
  | ThemeKeydown toggle html => theme_keydown toggle html e
  | ThemeSystemChange toggle html => theme_system_change toggle html e
  | NavToggleClick toggle links => nav_toggle_click toggle links ;; mret []
  | NavDocumentClick toggle links => nav_document_click toggle links e ;; mret []
  | NavDocumentKeydown toggle links => nav_document_keydown toggle links e
  | NavLinkClick toggle links => closeMenu toggle links ;; mret []
  end.

(** ** External links (script.js, lines 266-279) *)

(** [hay.includes(needle)] *)
Fixpoint includes (needle hay : string) : bool :=
  String.prefix needle hay ||
  match hay with
  | String _ rest => includes needle rest
  | EmptyString => false
  end.

Section ExternalLinks.

(** What the page model does not hold: the host name that [link.hostname]
    derives from the href of a link, [window.location.hostname], and the
    text content of each element (strings are UTF-8 encoded). *)
Variable url_hostname : string → string.
Variable location_hostname : string.
Variable textContent : nat → string.

(** ['a[href^="http"]'] *)
Definition is_http_anchor (e : Element) : bool :=
  bool_decide (tagName e = "a") &&
  match attributes e !! "href" with
  | Some href => String.prefix "http" href
  | None => false
  end.

(** The body of the loop over the links. *)
Definition external_link (link : nat) : JS unit :=
  e ← getElement link;
  if bool_decide (url_hostname (default "" (attributes e !! "href")) = location_hostname)
  then skip
  else if bool_decide ("btn" ∈ classList e) || bool_decide ("nav-brand" ∈ classList e)
  then skip
  else
    icon ← element_querySelector link [[SelClass "external-icon"]];
    if bool_decide (icon = None) && negb (includes "↗" (textContent link)) then
      setAttribute link "target" "_blank" ;;
      setAttribute link "rel" "noopener noreferrer"
    else skip.

Definition initExternalLinks : JS unit :=
  d ← gets dom;
  forEach external_link (handles_where (λ _ e, is_http_anchor e) d).

(** The links that initExternalLinks marks, and a link once marked. *)
Definition is_marked_external (d : list Element) (n : nat) (e : Element) : bool :=
  is_http_anchor e &&
  negb (bool_decide (url_hostname (default "" (attributes e !! "href")) = location_hostname)) &&
  negb (bool_decide ("btn" ∈ classList e) || bool_decide ("nav-brand" ∈ classList e)) &&
  bool_decide (head (select_within d n [[SelClass "external-icon"]]) = None) &&
  negb (includes "↗" (textContent n)).

Definition mark_external (e : Element) : Element :=
  with_attributes (λ a, <["rel" := "noopener noreferrer"]> (<["target" := "_blank"]> a)) e.

(** The page with every such link marked. *)
Definition with_external_marks (d : list Element) : list Element :=
  imap (λ n e, if is_marked_external d n e then mark_external e else e) d.

End ExternalLinks.

(** Pages that differ in the values of attributes only. *)
Definition same_shape (d d' : list Element) : Prop :=
  length d' = length d ∧
  ∀ m e, d !! m = Some e →
    ∃ e', d' !! m = Some e' ∧ tagName e' = tagName e ∧
          parentNode e' = parentNode e ∧ classList e' = classList e.

(** ** Updates of the page, for the statements below *)

Definition set_attr (n : nat) (name value : string) (w : World) : World :=
  set_dom (alter (with_attributes (λ a, <[name := value]> a)) n) w.

Definition set_classes (n : nat) (f : list string → list string) (w : World) : World :=
  set_dom (alter (with_classList f) n) w.

(** The theme of the page and the theme in storage. *)
Definition page_theme (w : World) : option string := attr w documentElement "data-theme".

Definition stored_theme (w : World) : option string := storageArea w ≫= λ items, items !! "theme".

(** The theme that a click on the toggle switches to: light from dark, dark
    from anything else. *)
Definition next_theme (current : option string) : string :=
  if bool_decide (current = Some "dark") then "light" else "dark".

(** The value of aria-pressed for a theme. *)
Definition pressed_for (theme : option string) : string :=
  string_of_bool (bool_decide (theme = Some "dark")).

(** The menu is open, or closed, for both the eye and assistive technology. *)
Definition menu_open (toggle links : nat) (w : World) : Prop :=
  has_class w links "open" = true ∧ attr w toggle "aria-expanded" = Some "true".

Definition menu_closed (toggle links : nat) (w : World) : Prop :=
  has_class w links "open" = false ∧ attr w toggle "aria-expanded" = Some "false".

(** [root.contains(other)] as an observation of the page. *)
Definition contains_in (w : World) (root other : nat) : bool :=
  bool_decide (root = other) || has_ancestor (length (dom w)) (dom w) root other.

(** The host handles a sequence of events, each with the handler that
    listens for it. *)
Definition run_events (evs : list (Handler * Event)) : JS unit :=
  forEach (λ he, run_handler he.1 he.2 ;; skip) evs.

(** The four handlers that initNavigation registers. *)
Definition nav_handlers (toggle links : nat) : list Handler :=
  [NavToggleClick toggle links; NavDocumentClick toggle links;
   NavDocumentKeydown toggle links; NavLinkClick toggle links].

(** The targets of the intersecting entries of a batch, and the page with
    each of a list of elements marked visible. *)
Definition revealed (entries : list Entry) : list nat :=
  target <$> filter (λ e, isIntersecting e = true) entries.

Definition mark_visible (ts : list nat) (w : World) : World :=
  foldl (λ v t, set_classes t (token_add "visible") v) w ts.

(** A page with a theme button and a navigation menu. *)
Definition site_world : World :=
  mkWorld
    [ mkElement "html" None ∅ [];
      mkElement "button" (Some 0) {[ "id" := "theme-toggle" ]} [];
      mkElement "button" (Some 0) {[ "id" := "nav-toggle" ]} [];
      mkElement "span" (Some 2) ∅ [];
      mkElement "ul" (Some 0) {[ "id" := "nav-links" ]} [];
      mkElement "a" (Some 4) {[ "href" := "https://example.org/docs" ]} [];
      mkElement "a" (Some 4) {[ "href" := "https://example.org/" ]} ["btn"];
      mkElement "main" (Some 0) ∅ [];
      mkElement "a" (Some 7) {[ "href" := "https://own.example/about" ]} [] ]
    [] [] (Some ∅).

(** * Properties *)

(** ** Running computations *)

Lemma bind_run {A B} (m : JS A) (f : A → JS B) w :
  (m ≫= f) w =
  match m w with
  | (Normal a, w') => f a w'
  | (Throw e, w') => (Throw e, w')
  end.
Proof. reflexivity. Qed.

Lemma forEach_cons {A} (f : A → JS unit) x xs w :
  forEach f (x :: xs) w =
  match f x w with
  | (Normal _, w') => forEach f xs w'
  | (Throw e, w') => (Throw e, w')
  end.
Proof. reflexivity. Qed.

Lemma forEach_app {A} (f : A → JS unit) xs ys w :
  forEach f (xs ++ ys) w =
  match forEach f xs w with
  | (Normal _, w') => forEach f ys w'
  | (Throw e, w') => (Throw e, w')
  end.
Proof.
  revert w. induction xs as [|x xs IH]; intros w; [done|].
  rewrite <- app_comm_cons, !forEach_cons.
  destruct (f x w) as [[[]|e] w1]; [by apply IH | done].
Qed.

(** Batches delivered one after the other act like their concatenation. *)
Lemma forEach_concat {A} (f : A → JS unit) xss w :
  forEach (forEach f) xss w = forEach f (concat xss) w.
Proof.
  revert w. induction xss as [|xs xss IH]; intros w; [done|].
  cbn [concat]. rewrite forEach_cons, forEach_app.
  destruct (forEach f xs w) as [[[]|e] w1]; [by apply IH | done].
Qed.

(** Items on which the body does nothing can be left out. *)
Lemma forEach_filter {A} (P : A → Prop) `{!∀ x, Decision (P x)} (f : A → JS unit) xs w :
  (∀ x v, ¬ P x → f x v = (Normal tt, v)) →
  forEach f xs w = forEach f (filter P xs) w.
Proof.
  intros Hskip. revert w. induction xs as [|x xs IH]; intros w; [done|].
  rewrite filter_cons. case_decide as HP.
  - rewrite !forEach_cons. destruct (f x w) as [[[]|e] w1]; [by apply IH | done].
  - rewrite forEach_cons, Hskip by done. apply IH.
Qed.

(** A loop whose body keeps an invariant [I] and establishes [R x] for its
    own item without breaking [R y] for any other. *)
Lemma forEach_establish {A} (I : World → Prop) (R : A → World → Prop)
    (f : A → JS unit) xs w :
  (∀ x w, x ∈ xs → I w →
     ∃ w', f x w = (Normal tt, w') ∧ I w' ∧ R x w' ∧ ∀ y, R y w → R y w') →
  I w →
  ∃ w', forEach f xs w = (Normal tt, w') ∧ I w' ∧
        (∀ x, x ∈ xs → R x w') ∧ (∀ y, R y w → R y w').
Proof.
  revert w. induction xs as [|x xs IH]; intros w Hbody HI.
  - exists w. split_and!; [done | done | | done]. intros x Hx. by apply elem_of_nil in Hx.
  - destruct (Hbody x w) as (w1 & Hrun & HI1 & HR1 & Hkeep1); [left | done |].
    destruct (IH w1) as (w2 & Hrest & HI2 & HR2 & Hkeep2); [|done|].
    { intros y v Hy. apply Hbody. by right. }
    exists w2. rewrite forEach_cons, Hrun. split_and!; [done | done | | by auto].
    intros y Hy. apply elem_of_cons in Hy as [->|Hy]; auto.
Qed.

Lemma getElement_run n w :
  getElement n w =
  match dom w !! n with
  | Some e => (Normal e, w)
  | None => (Throw TypeError, w)
  end.
Proof. unfold getElement. rewrite bind_run. cbn. by destruct (dom w !! n). Qed.

Lemma updateElement_run n f w e :
  dom w !! n = Some e →
  updateElement n f w = (Normal tt, set_dom (λ d, <[n := f e]> d) w).
Proof. intros H. unfold updateElement. by rewrite bind_run, getElement_run, H. Qed.

Lemma dom_set_dom f w : dom (set_dom f w) = f (dom w).
Proof. reflexivity. Qed.

Lemma set_dom_set_dom f g w : set_dom f (set_dom g w) = set_dom (f ∘ g) w.
Proof. reflexivity. Qed.

Lemma attr_replace w n e' m name :
  attr (set_dom (λ d, <[n := e']> d) w) m name =
  if decide (m = n ∧ n < length (dom w)) then attributes e' !! name else attr w m name.
Proof.
  unfold attr. rewrite dom_set_dom. case_decide as H.
  - destruct H as [-> H]. by rewrite list_lookup_insert_eq.
  - destruct (decide (m = n)) as [->|Hne].
    + rewrite list_insert_ge; [done | lia].
    + by rewrite list_lookup_insert_ne.
Qed.

Lemma has_class_replace w n e' m tok :
  has_class (set_dom (λ d, <[n := e']> d) w) m tok =
  if decide (m = n ∧ n < length (dom w)) then bool_decide (tok ∈ classList e')
  else has_class w m tok.
Proof.
  unfold has_class. rewrite dom_set_dom. case_decide as H.
  - destruct H as [-> H]. by rewrite list_lookup_insert_eq.
  - destruct (decide (m = n)) as [->|Hne].
    + rewrite list_insert_ge; [done | lia].
    + by rewrite list_lookup_insert_ne.
Qed.

Lemma stable_refl w : stable w w.
Proof. by repeat split. Qed.

Lemma stable_trans w0 w1 w2 : stable w0 w1 → stable w1 w2 → stable w0 w2.
Proof.
  intros (?&?&?&?&Ha) (?&?&?&?&Hb). repeat split; try congruence.
  intros n name Hn. rewrite Hb, Ha; done.
Qed.

Lemma stable_is_element w0 w n : stable w0 w → is_element w0 n → is_element w n.
Proof. intros (_&_&_&Hlen&_). unfold is_element. by rewrite Hlen. Qed.

Lemma is_element_lookup w n : is_element w n ↔ is_Some (dom w !! n).
Proof. unfold is_element. by rewrite lookup_lt_is_Some. Qed.

(** Classes and the aria-current attribute may change under [stable]. *)
Lemma stable_replace w n e e' :
  dom w !! n = Some e →
  (∀ name, name ≠ "aria-current" → attributes e' !! name = attributes e !! name) →
  stable w (set_dom (λ d, <[n := e']> d) w).
Proof.
  intros He Hattrs. repeat split.
  - cbn. by rewrite length_insert.
  - intros m name Hname. rewrite attr_replace. case_decide as H; [|done].
    destruct H as [-> _]. unfold attr. rewrite He. cbn. by apply Hattrs.
Qed.

Lemma token_add_elem tok toks t : t ∈ token_add tok toks ↔ t = tok ∨ t ∈ toks.
Proof.
  unfold token_add. case_bool_decide as H.
  - split; [by right | intros [->|?]; done].
  - rewrite elem_of_app, list_elem_of_singleton. tauto.
Qed.

Lemma token_remove_elem tok toks t : t ∈ token_remove tok toks ↔ t ≠ tok ∧ t ∈ toks.
Proof. unfold token_remove. by rewrite list_elem_of_filter. Qed.

(** ** One link, one entry *)

Lemma toc_update_link_run entry link w e t :
  dom w !! link = Some e →
  dom w !! target entry = Some t →
  toc_update_link entry link w =
  (Normal tt,
   set_dom (λ d, <[link := link_after ("#" +:+ default "" (attributes t !! "id")) e]> d) w).
Proof.
  intros He Ht.
  assert (Hlt : link < length (dom w)) by (by eapply lookup_lt_Some).
  unfold toc_update_link, getAttribute, element_id, classList_toggle, link_after.
  rewrite !bind_run, getElement_run, He. cbn.
  rewrite !bind_run, getElement_run, Ht. cbn.
  rewrite !bind_run. erewrite updateElement_run by done. cbn.
  case_bool_decide as Hhref.
  - unfold setAttribute. erewrite updateElement_run
      by (rewrite dom_set_dom; by apply list_lookup_insert_eq).
    rewrite set_dom_set_dom. unfold set_dom. cbn. by rewrite list_insert_insert_eq.
  - unfold removeAttribute. erewrite updateElement_run
      by (rewrite dom_set_dom; by apply list_lookup_insert_eq).
    rewrite set_dom_set_dom. unfold set_dom. cbn. by rewrite list_insert_insert_eq.
Qed.

Lemma link_after_attributes frag e name :
  name ≠ "aria-current" → attributes (link_after frag e) !! name = attributes e !! name.
Proof.
  intros Hname. unfold link_after. case_bool_decide; cbn.
  - by rewrite lookup_insert_ne.
  - by rewrite lookup_delete_ne.
Qed.

Lemma link_after_active frag e :
  "active" ∈ classList (link_after frag e) ↔ attributes e !! "href" = Some frag.
Proof.
  unfold link_after. case_bool_decide as H; cbn.
  - rewrite token_add_elem. tauto.
  - rewrite token_remove_elem. split; [by intros [? _] | done].
Qed.

Lemma link_after_current frag e :
  attributes (link_after frag e) !! "aria-current" =
  if bool_decide (attributes e !! "href" = Some frag) then Some "true" else None.
Proof.
  unfold link_after. case_bool_decide; cbn.
  - by rewrite lookup_insert_eq.
  - by rewrite lookup_delete_eq.
Qed.

(** After its pass a link is in step with the fragment. *)
Lemma in_step_after frag w link e :
  dom w !! link = Some e →
  in_step frag (set_dom (λ d, <[link := link_after frag e]> d) w) link.
Proof.
  intros He.
  assert (Hlt : link < length (dom w)) by (by eapply lookup_lt_Some).
  unfold in_step. rewrite has_class_replace, !attr_replace.
  rewrite !decide_True by done.
  rewrite link_after_current, link_after_attributes by done.
  rewrite bool_decide_eq_true, link_after_active.
  case_bool_decide; split_and!; try tauto; done.
Qed.

(** A pass over one link does not disturb another. *)
Lemma in_step_other frag w link e' other :
  other ≠ link →
  in_step frag w other →
  in_step frag (set_dom (λ d, <[link := e']> d) w) other.
Proof.
  intros Hne. unfold in_step. rewrite has_class_replace, !attr_replace.
  rewrite !decide_False by tauto. done.
Qed.

(** The inner loop of the callback, for one intersecting entry: every link
    ends in step with the fragment of the entry's heading. *)
Lemma toc_links_pass tocLinks entry w :
  Forall (is_element w) tocLinks →
  is_element w (target entry) →
  ∃ w', forEach (toc_update_link entry) tocLinks w = (Normal tt, w') ∧
        stable w w' ∧
        ∀ link, link ∈ tocLinks → in_step (fragment_of w (target entry)) w' link.
Proof.
  intros Hlinks Htarget.
  set (frag := fragment_of w (target entry)).
  destruct (forEach_establish (λ v, stable w v) (λ link v, in_step frag v link)
              (toc_update_link entry) tocLinks w) as (w' & Hrun & Hst & Hall & _).
  - intros link v Hin Hst.
    apply is_element_lookup in Htarget as Htv. 
    rewrite Forall_forall in Hlinks.
    destruct (proj1 (is_element_lookup v link)) as [e He].
    { eapply stable_is_element; eauto. }
    destruct (proj1 (is_element_lookup v (target entry))) as [t Ht].
    { eapply stable_is_element; eauto. }
    assert (Hfrag : "#" +:+ default "" (attributes t !! "id") = frag).
    { unfold frag, fragment_of. destruct Hst as (_&_&_&_&Hattr).
      rewrite <- (Hattr (target entry) "id") by done. unfold attr. by rewrite Ht. }
    eexists. split; [by eapply toc_update_link_run|]. rewrite Hfrag.
    split_and!.
    + eapply stable_trans; [done|]. eapply stable_replace; [done|].
      intros name Hname. by apply link_after_attributes.
    + by apply in_step_after.
    + intros other Hother. destruct (decide (other = link)) as [->|Hne].
      * by apply in_step_after.
      * by apply in_step_other.
  - apply stable_refl.
  - by exists w'.
Qed.

(** ** The TOC callback over batches *)

Lemma last_intersecting_cons e entries :
  last_intersecting (e :: entries) =
  match last_intersecting entries with
  | Some h => Some h
  | None => if isIntersecting e then Some (target e) else None
  end.
Proof.
  unfold last_intersecting. rewrite filter_cons.
  destruct (filter _ entries) as [|e' es] eqn:Hf; case_decide as Hi.
  - cbn. by rewrite Hi.
  - cbn. by destruct (isIntersecting e).
  - rewrite last_cons. destruct (last (e' :: es)); cbn; [done | by rewrite Hi].
  - destruct (last (e' :: es)); cbn; [done | by destruct (isIntersecting e)].
Qed.

Lemma fragment_of_stable w0 w h : stable w0 w → fragment_of w h = fragment_of w0 h.
Proof. intros (_&_&_&_&Hattr). unfold fragment_of. by rewrite Hattr. Qed.

(** One invocation of the callback: the links end in step with the last
    intersecting entry; without one, nothing changes. *)
Lemma toc_callback_pass tocLinks entries w :
  Forall (is_element w) tocLinks →
  Forall (λ e, is_element w (target e)) entries →
  ∃ w', toc_callback tocLinks entries w = (Normal tt, w') ∧
        stable w w' ∧
        match last_intersecting entries with
        | Some h => ∀ link, link ∈ tocLinks → in_step (fragment_of w h) w' link
        | None => w' = w
        end.
Proof.
  unfold toc_callback. revert w.
  induction entries as [|e entries IH]; intros w Hlinks Htargets.
  - exists w. split_and!; [done | apply stable_refl | done].
  - apply Forall_cons in Htargets as [Hte Htargets].
    assert (∃ w1, toc_entry tocLinks e w = (Normal tt, w1) ∧ stable w w1 ∧
              if isIntersecting e
              then ∀ link, link ∈ tocLinks → in_step (fragment_of w (target e)) w1 link
              else w1 = w) as (w1 & Hrun1 & Hst1 & Hpost1).
    { unfold toc_entry. destruct (isIntersecting e).
      - by apply toc_links_pass.
      - exists w. split_and!; [done | apply stable_refl | done]. }
    destruct (IH w1) as (w2 & Hrun2 & Hst2 & Hpost2).
    { eapply Forall_impl; [done|]. intros l. by apply stable_is_element. }
    { eapply Forall_impl; [done|]. intros l. by apply stable_is_element. }
    exists w2. rewrite forEach_cons, Hrun1. split_and!; [done | by eapply stable_trans |].
    rewrite last_intersecting_cons. destruct (last_intersecting entries) as [h|].
    + intros link Hlink. rewrite <- (fragment_of_stable w w1) by done. by apply Hpost2.
    + subst w2. by destruct (isIntersecting e).
Qed.

Lemma deliver_all_toc tocLinks batches w :
  deliver_all (TOCCallback tocLinks) batches w = toc_callback tocLinks (concat batches) w.
Proof. unfold deliver_all, toc_callback. cbn [run_callback]. apply forEach_concat. Qed.

Lemma attr_is_element w n name v : attr w n name = Some v → is_element w n.
Proof.
  unfold attr. intros H. apply is_element_lookup.
  destruct (dom w !! n); [by eexists | done].
Qed.

Lemma in_step_inactive frag w link :
  in_step frag w link → attr w link "href" ≠ Some frag →
  has_class w link "active" = false ∧ attr w link "aria-current" = None.
Proof.
  intros (Hcls & _ & Hnone) Hne. split; [|by apply Hnone].
  destruct (has_class w link "active"); [|done]. exfalso. apply Hne. by apply Hcls.
Qed.

Lemma in_step_active frag w link :
  in_step frag w link → attr w link "href" = Some frag →
  has_class w link "active" = true ∧ attr w link "aria-current" = Some "true".
Proof. intros (Hcls & Hcur & _) Heq. split; [by apply Hcls | by apply Hcur]. Qed.

Ltac each_item := repeat first [apply Forall_cons_2 | apply Forall_nil_2].

Ltac solve_elements := each_item; unfold is_element; cbn; lia.

Ltac split_members H :=
  repeat (apply elem_of_cons in H as [->|H]); [..| by apply elem_of_nil in H].

(** ** The TOC highlighter *)

(** C1, as amended.  Whatever batches the host delivers to the TOC callback,
    once an intersecting entry has been processed every TOC link is marked
    active, and carries aria-current, exactly when its href is the hash sign
    followed by the id of the heading of the last such entry; so at most one
    link is active on a page whose TOC links have distinct hrefs.  Every
    prefix of a sequence of batches is a sequence of batches, so this holds
    after each notification. *)
Theorem toc_marks_follow_last_heading tocLinks batches w h :
  Forall (is_element w) tocLinks →
  Forall (Forall (λ e, is_element w (target e))) batches →
  last_intersecting (concat batches) = Some h →
  ∃ w', deliver_all (TOCCallback tocLinks) batches w = (Normal tt, w') ∧
        (∀ link, link ∈ tocLinks → in_step (fragment_of w h) w' link) ∧
        (distinct_hrefs w tocLinks → at_most_one_active w' tocLinks).
Proof.
  intros Hlinks Hbatches Hlast. rewrite deliver_all_toc.
  destruct (toc_callback_pass tocLinks (concat batches) w) as (w' & Hrun & Hst & Hpost).
  { done. }
  { by apply Forall_concat. }
  rewrite Hlast in Hpost. exists w'. split_and!; [done | done |].
  intros Hdistinct l1 l2 H1 H2 Ha1 Ha2.
  destruct Hst as (_&_&_&_&Hattr).
  apply (Hdistinct l1 l2 (fragment_of w h)); [done | done | |].
  - rewrite <- Hattr by done. destruct (Hpost l1 H1) as [Hc _]. by apply Hc.
  - rewrite <- Hattr by done. destruct (Hpost l2 H2) as [Hc _]. by apply Hc.
Qed.

Lemma toc_marks_follow_last_heading_witness :
  ∃ w', deliver_all (TOCCallback [1; 2; 3])
          [[mkEntry 4 true; mkEntry 5 true]; [mkEntry 6 false]] sample_world
        = (Normal tt, w') ∧
        (∀ link, link ∈ [1; 2; 3] → in_step (fragment_of sample_world 5) w' link) ∧
        (distinct_hrefs sample_world [1; 2; 3] → at_most_one_active w' [1; 2; 3]).
Proof.
  apply (toc_marks_follow_last_heading [1; 2; 3] _ sample_world 5).
  - solve_elements.
  - solve_elements.
  - reflexivity.
Defined.

(** C1, as stated, fails: on a page whose table of contents lists section a
    twice, one notification for heading a leaves both links active. *)
Lemma toc_duplicate_links_both_active :
  ∃ w', (initTOC ;; deliver 0 [mkEntry 3 true]) twice_world = (Normal tt, w') ∧
        select_within (dom twice_world) 0 sel_anchors = [1; 2] ∧
        ¬ at_most_one_active w' [1; 2].
Proof.
  eexists. split; [vm_compute; reflexivity|]. split; [by vm_compute|].
  intros H. specialize (H 1 2). 
  assert (1 = 2) as Heq; [|discriminate].
  apply H; [by left | by right; left | by vm_compute | by vm_compute].
Qed.

(** C3.  With links to #a, #b and #c, one notification that heading b is
    intersecting leaves the link to #b active with aria-current set, and the
    other two inactive without the attribute. *)
Theorem toc_heading_b_marks_link_b la lb lc hb w :
  attr w la "href" = Some "#a" →
  attr w lb "href" = Some "#b" →
  attr w lc "href" = Some "#c" →
  attr w hb "id" = Some "b" →
  ∃ w', run_callback (TOCCallback [la; lb; lc]) [mkEntry hb true] w = (Normal tt, w') ∧
        has_class w' lb "active" = true ∧ attr w' lb "aria-current" = Some "true" ∧
        has_class w' la "active" = false ∧ attr w' la "aria-current" = None ∧
        has_class w' lc "active" = false ∧ attr w' lc "aria-current" = None.
Proof.
  intros Ha Hb Hc Hid. cbn [run_callback].
  destruct (toc_callback_pass [la; lb; lc] [mkEntry hb true] w) as (w' & Hrun & Hst & Hpost).
  { each_item; by eapply attr_is_element. }
  { each_item. by eapply attr_is_element. }
  exists w'. split; [done|].
  assert (Hfrag : fragment_of w hb = "#b") by (unfold fragment_of; by rewrite Hid).
  change (last_intersecting [mkEntry hb true]) with (Some hb) in Hpost.
  cbv beta iota in Hpost.
  rewrite Hfrag in Hpost.
  destruct Hst as (_&_&_&_&Hattr).
  destruct (in_step_active "#b" w' lb) as [? ?].
  { apply Hpost. set_solver. }
  { by rewrite Hattr. }
  destruct (in_step_inactive "#b" w' la) as [? ?].
  { apply Hpost. set_solver. }
  { rewrite Hattr, Ha by done. discriminate. }
  destruct (in_step_inactive "#b" w' lc) as [? ?].
  { apply Hpost. set_solver. }
  { rewrite Hattr, Hc by done. discriminate. }
  done.
Qed.

Lemma toc_heading_b_marks_link_b_witness :
  ∃ w', run_callback (TOCCallback [1; 2; 3]) [mkEntry 5 true] sample_world = (Normal tt, w') ∧
        has_class w' 2 "active" = true ∧ attr w' 2 "aria-current" = Some "true" ∧
        has_class w' 1 "active" = false ∧ attr w' 1 "aria-current" = None ∧
        has_class w' 3 "active" = false ∧ attr w' 3 "aria-current" = None.
Proof.
  apply (toc_heading_b_marks_link_b 1 2 3 5 sample_world); reflexivity.
Defined.

(** C9.  An intersecting heading that no TOC link points to leaves every
    TOC link inactive and without aria-current. *)
Theorem toc_unlisted_heading_clears_links tocLinks h w :
  Forall (is_element w) tocLinks →
  is_element w h →
  (∀ link, link ∈ tocLinks → attr w link "href" ≠ Some (fragment_of w h)) →
  ∃ w', run_callback (TOCCallback tocLinks) [mkEntry h true] w = (Normal tt, w') ∧
        ∀ link, link ∈ tocLinks →
          has_class w' link "active" = false ∧ attr w' link "aria-current" = None.
Proof.
  intros Hlinks Hh Hnone. cbn [run_callback].
  destruct (toc_callback_pass tocLinks [mkEntry h true] w) as (w' & Hrun & Hst & Hpost).
  { done. }
  { by each_item. }
  change (last_intersecting [mkEntry h true]) with (Some h) in Hpost.
  cbv beta iota in Hpost.
  exists w'. split; [done|]. intros link Hlink.
  apply (in_step_inactive (fragment_of w h)); [by apply Hpost|].
  destruct Hst as (_&_&_&_&Hattr). rewrite Hattr by done. by apply Hnone.
Qed.

Lemma toc_unlisted_heading_clears_links_witness :
  ∃ w', run_callback (TOCCallback [1; 2; 3]) [mkEntry 8 true] sample_world = (Normal tt, w') ∧
        ∀ link, link ∈ [1; 2; 3] →
          has_class w' link "active" = false ∧ attr w' link "aria-current" = None.
Proof.
  apply (toc_unlisted_heading_clears_links [1; 2; 3] 8 sample_world).
  - solve_elements.
  - unfold is_element. cbn. lia.
  - intros link H. split_members H; vm_compute; discriminate.
Defined.

(** C10.  An entry that is not intersecting changes nothing: the page is as
    it was, and so are the active marker and the aria-current attribute of
    every link.  Hence a batch acts like its intersecting entries alone. *)
Theorem toc_non_intersecting_entry_changes_nothing tocLinks t w :
  (∃ w', toc_entry tocLinks (mkEntry t false) w = (Normal tt, w') ∧
         w' = w ∧
         ∀ link, has_class w' link "active" = has_class w link "active" ∧
                 attr w' link "aria-current" = attr w link "aria-current") ∧
  ∀ entries,
    toc_callback tocLinks entries w =
    toc_callback tocLinks (filter (λ e, isIntersecting e = true) entries) w.
Proof.
  split; [by exists w|]. intros entries. apply forEach_filter.
  intros e v He. unfold toc_entry. by destruct (isIntersecting e).
Qed.

(** ** Queries return elements of the page *)

Lemma handles_where_elem p d n :
  n ∈ handles_where p d ↔ ∃ e, d !! n = Some e ∧ p n e = true.
Proof.
  unfold handles_where, satisfies. rewrite list_elem_of_filter, elem_of_seq.
  split.
  - intros [Hp _]. destruct (d !! n) as [e|]; [|done]. exists e. split; [done|].
    by apply Is_true_true.
  - intros (e & He & Hp). rewrite He. split; [by apply Is_true_true|].
    apply lookup_lt_Some in He. lia.
Qed.

Lemma handles_where_NoDup p d : NoDup (handles_where p d).
Proof. unfold handles_where. apply NoDup_filter, NoDup_seq. Qed.

Lemma handles_where_elements p w : Forall (is_element w) (handles_where p (dom w)).
Proof.
  apply Forall_forall. intros n Hn. apply handles_where_elem in Hn as (e & He & _).
  apply is_element_lookup. by exists e.
Qed.

Lemma find_by_id_element w id n : find_by_id (dom w) id = Some n → is_element w n.
Proof.
  unfold find_by_id. intros H. apply head_Some_elem_of in H.
  pose proof (handles_where_elements
                (λ _ e, bool_decide (attributes e !! "id" = Some id)) w) as Hall.
  rewrite Forall_forall in Hall. by apply Hall.
Qed.

Lemma getElementById_run id w :
  getElementById id w = (Normal (find_by_id (dom w) id), w).
Proof. reflexivity. Qed.

Lemma document_querySelectorAll_run sel w :
  document_querySelectorAll sel w = (Normal (select (dom w) sel), w).
Proof. reflexivity. Qed.

Lemma matchMedia_matches_run query w :
  matchMedia_matches query w = (Normal (bool_decide (query ∈ matchingMedia w)), w).
Proof. reflexivity. Qed.

Lemma length_zero_decide {A} (l : list A) :
  bool_decide (length l = 0) = bool_decide (l = []).
Proof. by destruct l. Qed.

Lemma element_querySelectorAll_run root sel w :
  is_element w root →
  element_querySelectorAll root sel w = (Normal (select_within (dom w) root sel), w).
Proof.
  intros H. apply is_element_lookup in H as [e He].
  unfold element_querySelectorAll. by rewrite bind_run, getElement_run, He.
Qed.

(** ** Registering targets *)

Lemma observe_run obs t w o :
  is_element w t →
  observers w !! obs = Some o →
  observe obs t w = (Normal tt, set_observers (λ os, <[obs := add_target t o]> os) w).
Proof.
  intros Ht Ho. apply is_element_lookup in Ht as [e He].
  unfold observe. rewrite bind_run, getElement_run, He. cbn.
  rewrite bind_run. cbn. by rewrite Ho.
Qed.

Lemma observe_loop obs ts w o :
  Forall (is_element w) ts →
  observers w !! obs = Some o →
  forEach (observe obs) ts w =
  (Normal tt, set_observers (λ os, <[obs := foldl (λ o t, add_target t o) o ts]> os) w).
Proof.
  revert w o. induction ts as [|t ts IH]; intros w o Hts Ho.
  - cbn. unfold set_observers. rewrite list_insert_id by done. by destruct w.
  - apply Forall_cons in Hts as [Ht Hts].
    rewrite forEach_cons. erewrite observe_run by done.
    erewrite IH; [| done |].
    + unfold set_observers. cbn. by rewrite list_insert_insert_eq.
    + cbn. apply list_lookup_insert_eq. by eapply lookup_lt_Some.
Qed.

(** Distinct targets are registered in order. *)
Lemma register_distinct cb m th acc ts :
  NoDup (acc ++ ts) →
  foldl (λ o t, add_target t o) (mkObserver cb m th acc) ts = mkObserver cb m th (acc ++ ts).
Proof.
  revert acc. induction ts as [|t ts IH]; intros acc Hnd.
  - by rewrite app_nil_r.
  - cbn [foldl]. unfold add_target at 2. cbn.
    rewrite bool_decide_eq_false_2.
    + rewrite IH; rewrite <- app_assoc; done.
    + apply NoDup_app in Hnd as (_ & Hdis & _). intros Hin.
      apply (Hdis t Hin). by left.
Qed.

(** Creating an observer and registering the distinct elements [ts]. *)
Lemma new_observer_and_targets cb init m th ts w :
  new_IntersectionObserver cb init w =
    (Normal (length (observers w)),
     set_observers (λ os, os ++ [mkObserver cb m th []]) w) →
  Forall (is_element w) ts →
  NoDup ts →
  (observer ← new_IntersectionObserver cb init; forEach (λ t, observe observer t) ts) w =
  (Normal tt, set_observers (λ os, os ++ [mkObserver cb m th ts]) w).
Proof.
  intros Hnew Hts Hnd. rewrite bind_run, Hnew.
  erewrite (observe_loop _ ts _ (mkObserver cb m th [])).
  - rewrite register_distinct by done. unfold set_observers. cbn.
    rewrite insert_app_r_alt by done. by rewrite Nat.sub_diag.
  - done.
  - cbn. by apply list_lookup_middle.
Qed.

(** ** The storage wrapper *)

Lemma try_catch_completes {A} (m : JS A) (h : Exn → JS A) w :
  (∀ e v, completes (h e) v) → completes (try_catch m h) w.
Proof.
  intros Hh. unfold completes, try_catch.
  destruct (m w) as [[a|e] w1]; [by eauto | apply Hh].
Qed.

(** C6.  Whatever the host's storage does, [storage.get] and [storage.set]
    return normally; when the host's getItem throws, [storage.get] returns
    null, and when its setItem throws, [storage.set] returns with the state
    the failed call left, which is the state before the call for a host whose
    failed call changed nothing. *)
Theorem storage_swallows_errors
    (getItem : string → JS (option string)) (setItem : string → string → JS unit)
    (key value : string) (w : World) :
  completes (storage_get getItem key) w ∧
  completes (storage_set setItem key value) w ∧
  (∀ e w', getItem key w = (Throw e, w') →
     storage_get getItem key w = (Normal None, w')) ∧
  (∀ e w', setItem key value w = (Throw e, w') →
     storage_set setItem key value w = (Normal tt, w')).
Proof.
  split_and!.
  - apply try_catch_completes. intros _ v. by eexists _, _.
  - apply try_catch_completes. intros _ v. by eexists _, _.
  - intros e w' H. unfold storage_get, try_catch. by rewrite H.
  - intros e w' H. unfold storage_set, try_catch. by rewrite H.
Qed.

(** With storage denied, reading gives null and writing changes nothing. *)
Example storage_denied key value w :
  storageArea w = None →
  storage_get host_getItem key w = (Normal None, w) ∧
  storage_set host_setItem key value w = (Normal tt, w).
Proof.
  intros H. unfold storage_get, storage_set, try_catch, host_getItem, host_setItem.
  rewrite !bind_run. cbn. by rewrite H.
Qed.

Example storage_available :
  (storage_set host_setItem "theme" "dark" ;; storage_get host_getItem "theme")
    (mkWorld [] [] [] (Some ∅))
  = (Normal (Some "dark"), mkWorld [] [] [] (Some {[ "theme" := "dark" ]})).
Proof. by vm_compute. Qed.

(** ** Reveal on scroll *)

Lemma classList_add_run t tok w e :
  dom w !! t = Some e →
  classList_add t tok w =
  (Normal tt, set_dom (λ d, <[t := with_classList (token_add tok) e]> d) w).
Proof. intros He. unfold classList_add. by erewrite updateElement_run. Qed.

(** Adding a class marks the element and removes no class from any. *)
Lemma classList_add_pass t tok w :
  is_element w t →
  ∃ w', classList_add t tok w = (Normal tt, w') ∧ stable w w' ∧
        has_class w' t tok = true ∧
        ∀ n c, has_class w n c = true → has_class w' n c = true.
Proof.
  intros Ht. pose proof Ht as Hlt. apply is_element_lookup in Ht as [e He].
  eexists. split; [by apply classList_add_run|]. split_and!.
  - by eapply stable_replace.
  - rewrite has_class_replace, decide_True by done.
    apply bool_decide_eq_true. cbn. apply token_add_elem. by left.
  - intros n c Hc. rewrite has_class_replace. case_decide as Hn; [|done].
    destruct Hn as [-> _]. unfold has_class in Hc. rewrite He in Hc.
    apply bool_decide_eq_true. apply bool_decide_eq_true in Hc.
    cbn. apply token_add_elem. by right.
Qed.

Lemma reveal_callback_pass entries w :
  Forall (λ e, is_element w (target e)) entries →
  ∃ w', reveal_callback entries w = (Normal tt, w') ∧ stable w w' ∧
        (∀ e, e ∈ entries → isIntersecting e = true →
              has_class w' (target e) "visible" = true) ∧
        (∀ n, has_class w n "visible" = true → has_class w' n "visible" = true).
Proof.
  intros Htargets. rewrite Forall_forall in Htargets.
  destruct (forEach_establish (λ v, stable w v)
              (λ e v, isIntersecting e = true → has_class v (target e) "visible" = true)
              reveal_entry entries w) as (w' & Hrun & Hst & Hall & Hkeep).
  - intros e v He Hst. unfold reveal_entry. destruct (isIntersecting e) eqn:Hi.
    + destruct (classList_add_pass (target e) "visible" v) as (v' & Hrun & Hst' & Hnew & Hkeep).
      { eapply stable_is_element; eauto. }
      exists v'. split_and!; [done | by eapply stable_trans | done |].
      intros y Hy Hyi. by apply Hkeep, Hy.
    + exists v. split_and!; [done | done | done | done].
  - apply stable_refl.
  - exists w'. split_and!; [done | done | done |].
    intros n Hn. by apply (Hkeep (mkEntry n true)).
Qed.

Lemma deliver_all_reveal batches w :
  deliver_all RevealCallback batches w = reveal_callback (concat batches) w.
Proof. unfold deliver_all, reveal_callback. cbn [run_callback]. apply forEach_concat. Qed.

(** C2.  An entry that is not intersecting is a no-op for the reveal
    callback; whatever batches are delivered, an element that carries the
    visible class keeps it; and the batch (x, true), (y, true), (x, false)
    leaves both x and y visible. *)
Theorem reveal_is_one_way x y batches w :
  is_element w x →
  is_element w y →
  Forall (Forall (λ e, is_element w (target e))) batches →
  (∀ t v, reveal_entry (mkEntry t false) v = (Normal tt, v)) ∧
  (∃ w', deliver_all RevealCallback batches w = (Normal tt, w') ∧
         ∀ n, has_class w n "visible" = true → has_class w' n "visible" = true) ∧
  (∃ w', run_callback RevealCallback [mkEntry x true; mkEntry y true; mkEntry x false] w
         = (Normal tt, w') ∧
         has_class w' x "visible" = true ∧ has_class w' y "visible" = true).
Proof.
  intros Hx Hy Hbatches. split_and!.
  - done.
  - rewrite deliver_all_reveal.
    destruct (reveal_callback_pass (concat batches) w) as (w' & Hrun & _ & _ & Hkeep).
    { by apply Forall_concat. }
    by exists w'.
  - cbn [run_callback].
    destruct (reveal_callback_pass [mkEntry x true; mkEntry y true; mkEntry x false] w)
      as (w' & Hrun & _ & Hall & _).
    { by each_item. }
    exists w'. split_and!; [done | |].
    + apply (Hall (mkEntry x true)); [set_solver | done].
    + apply (Hall (mkEntry y true)); [set_solver | done].
Qed.

Lemma reveal_is_one_way_witness :
  (∀ t v, reveal_entry (mkEntry t false) v = (Normal tt, v)) ∧
  (∃ w', deliver_all RevealCallback
           [[mkEntry 4 true]; [mkEntry 4 false; mkEntry 7 true]; [mkEntry 7 false]]
           sample_world = (Normal tt, w') ∧
         ∀ n, has_class sample_world n "visible" = true → has_class w' n "visible" = true) ∧
  (∃ w', run_callback RevealCallback [mkEntry 4 true; mkEntry 7 true; mkEntry 4 false]
           sample_world = (Normal tt, w') ∧
         has_class w' 4 "visible" = true ∧ has_class w' 7 "visible" = true).
Proof.
  apply (reveal_is_one_way 4 7 _ sample_world).
  - unfold is_element. cbn. lia.
  - unfold is_element. cbn. lia.
  - each_item; unfold is_element; cbn; lia.
Defined.

(** The registered system end to end: the observer that
    initRevealAnimations creates on the sample page watches elements 4 and
    7, and the batch of C2 delivered to it marks both. *)
Example reveal_sample_page :
  ∃ w', (initRevealAnimations ;;
         deliver 0 [mkEntry 4 true; mkEntry 7 true; mkEntry 4 false]) sample_world
        = (Normal tt, w') ∧
        targets <$> observers w' = [[4; 7]] ∧
        has_class w' 4 "visible" = true ∧ has_class w' 7 "visible" = true.
Proof. eexists. split; [vm_compute; reflexivity|]. by vm_compute. Qed.

(** C4.  With reduced motion requested and some revealable element on the
    page, initRevealAnimations marks every such element visible and sets up
    no observation: the observers of the page are those it had before. *)
Theorem reduced_motion_reveals_at_once w :
  select (dom w) sel_reveal ≠ [] →
  "(prefers-reduced-motion: reduce)" ∈ matchingMedia w →
  ∃ w', initRevealAnimations w = (Normal tt, w') ∧
        observers w' = observers w ∧
        ∀ el, el ∈ select (dom w) sel_reveal → has_class w' el "visible" = true.
Proof.
  intros Hne Hmedia. unfold initRevealAnimations.
  rewrite bind_run, document_querySelectorAll_run.
  rewrite length_zero_decide, bool_decide_eq_false_2 by done.
  rewrite bind_run, matchMedia_matches_run, bool_decide_eq_true_2 by done.
  destruct (forEach_establish (λ v, stable w v)
              (λ el v, has_class v el "visible" = true)
              (λ el, classList_add el "visible") (select (dom w) sel_reveal) w)
    as (w' & Hrun & Hst & Hall & _).
  - intros el v Hel Hst.
    destruct (classList_add_pass el "visible" v) as (v' & Hrun & Hst' & Hnew & Hkeep).
    { eapply stable_is_element; [done|].
      pose proof (handles_where_elements (λ _ e, matches_selector sel_reveal e) w) as Hall.
      rewrite Forall_forall in Hall. by apply Hall. }
    exists v'. split_and!; [done | by eapply stable_trans | done |].
    intros other. apply Hkeep.
  - apply stable_refl.
  - exists w'. split_and!; [done | by destruct Hst | done].
Qed.

Lemma reduced_motion_reveals_at_once_witness :
  ∃ w', initRevealAnimations (reduced sample_world) = (Normal tt, w') ∧
        observers w' = observers (reduced sample_world) ∧
        ∀ el, el ∈ select (dom (reduced sample_world)) sel_reveal →
              has_class w' el "visible" = true.
Proof.
  apply (reduced_motion_reveals_at_once (reduced sample_world)).
  - by vm_compute.
  - by left.
Defined.

(** ** Initialisation *)

(** C5.  Without a TOC container, or without any heading, initTOC returns
    normally and leaves the page, and its observers, exactly as they were. *)
Theorem initTOC_without_toc_or_headings w :
  find_by_id (dom w) "toc" = None ∨ select (dom w) sel_headings = [] →
  initTOC w = (Normal tt, w).
Proof.
  intros H. unfold initTOC. rewrite bind_run, getElementById_run.
  destruct (find_by_id (dom w) "toc") as [toc|] eqn:Htoc; [|done].
  destruct H as [H|H]; [done|].
  rewrite bind_run, document_querySelectorAll_run, H.
  rewrite bind_run, element_querySelectorAll_run by (by eapply find_by_id_element).
  done.
Qed.

Lemma initTOC_without_toc_or_headings_witness :
  initTOC (mkWorld [mkElement "h2" None {[ "id" := "a" ]} []] [] [] None)
  = (Normal tt, mkWorld [mkElement "h2" None {[ "id" := "a" ]} []] [] [] None) ∧
  initTOC (mkWorld [mkElement "nav" None {[ "id" := "toc" ]} [];
                    mkElement "h2" None ∅ []] [] [] None)
  = (Normal tt, mkWorld [mkElement "nav" None {[ "id" := "toc" ]} [];
                         mkElement "h2" None ∅ []] [] [] None).
Proof.
  split.
  - apply (initTOC_without_toc_or_headings
             (mkWorld [mkElement "h2" None {[ "id" := "a" ]} []] [] [] None)).
    left. reflexivity.
  - apply (initTOC_without_toc_or_headings
             (mkWorld [mkElement "nav" None {[ "id" := "toc" ]} [];
                       mkElement "h2" None ∅ []] [] [] None)).
    right. reflexivity.
Defined.

Lemma initTOC_run w toc :
  find_by_id (dom w) "toc" = Some toc →
  select (dom w) sel_headings ≠ [] →
  initTOC w =
    (Normal tt,
     set_observers
       (λ os, os ++ [mkObserver (TOCCallback (select_within (dom w) toc sel_anchors))
                                (mkMargins (Percent (-20)) (Percent 0) (Percent (-80)) (Percent 0))
                                [0%float] (select (dom w) sel_headings)]) w).
Proof.
  intros Htoc Hne.
  unfold initTOC. rewrite bind_run, getElementById_run, Htoc.
  rewrite bind_run, document_querySelectorAll_run.
  rewrite bind_run, element_querySelectorAll_run by (by eapply find_by_id_element).
  rewrite length_zero_decide, bool_decide_eq_false_2 by done.
  apply new_observer_and_targets.
  - reflexivity.
  - apply handles_where_elements.
  - apply handles_where_NoDup.
Qed.

Lemma initRevealAnimations_run w :
  select (dom w) sel_reveal ≠ [] →
  "(prefers-reduced-motion: reduce)" ∉ matchingMedia w →
  initRevealAnimations w =
    (Normal tt,
     set_observers
       (λ os, os ++ [mkObserver RevealCallback (mkMargins (Px 0) (Px 0) (Px (-50)) (Px 0))
                                [0.1%float] (select (dom w) sel_reveal)]) w).
Proof.
  intros Hne Hmedia. unfold initRevealAnimations.
  rewrite bind_run, document_querySelectorAll_run.
  rewrite length_zero_decide, bool_decide_eq_false_2 by done.
  rewrite bind_run, matchMedia_matches_run, bool_decide_eq_false_2 by done.
  apply new_observer_and_targets.
  - reflexivity.
  - apply handles_where_elements.
  - apply handles_where_NoDup.
Qed.

(** C8.  On a page with a TOC container and some heading, initTOC creates
    one observer, for the headings, whose root margin is -20% at the top and
    -80% at the bottom.  For a viewport of height [h] the root rectangle
    then starts 20% of [h] below the top edge and ends 80% of [h] above the
    bottom edge, and a heading meets it only if its box reaches that band. *)
Theorem initTOC_observes_top_band w toc :
  find_by_id (dom w) "toc" = Some toc →
  select (dom w) sel_headings ≠ [] →
  let m := mkMargins (Percent (-20)) (Percent 0) (Percent (-80)) (Percent 0) in
  initTOC w =
    (Normal tt,
     set_observers
       (λ os, os ++ [mkObserver (TOCCallback (select_within (dom w) toc sel_anchors))
                                m [0%float] (select (dom w) sel_headings)]) w) ∧
  parse_rootMargin "-20% 0% -80% 0%" = Some m ∧
  ∀ h, root_top m h = (20 * h)%Z ∧
       root_bottom m h = (100 * h - 80 * h)%Z ∧
       ∀ top bottom, meets_root m h top bottom = true ↔
                     (100 * top ≤ 20 * h ≤ 100 * bottom)%Z.
Proof.
  intros Htoc Hne m. split_and!.
  - by apply initTOC_run.
  - reflexivity.
  - intros h. subst m. unfold meets_root, root_top, root_bottom.
    cbn [marginTop marginBottom resolve].
    split_and!; [lia | lia |].
    intros top bottom. rewrite andb_true_iff, !Z.leb_le. lia.
Qed.

Lemma initTOC_observes_top_band_witness :
  let m := mkMargins (Percent (-20)) (Percent 0) (Percent (-80)) (Percent 0) in
  initTOC sample_world =
    (Normal tt,
     set_observers
       (λ os, os ++ [mkObserver (TOCCallback (select_within (dom sample_world) 0 sel_anchors))
                                m [0%float] (select (dom sample_world) sel_headings)])
       sample_world) ∧
  parse_rootMargin "-20% 0% -80% 0%" = Some m ∧
  ∀ h, root_top m h = (20 * h)%Z ∧
       root_bottom m h = (100 * h - 80 * h)%Z ∧
       ∀ top bottom, meets_root m h top bottom = true ↔
                     (100 * top ≤ 20 * h ≤ 100 * bottom)%Z.
Proof.
  apply (initTOC_observes_top_band sample_world 0).
  - reflexivity.
  - by vm_compute.
Defined.

(** C7.  Without the reduced-motion preference, and with some revealable
    element on the page, initRevealAnimations creates one observer, for
    those elements, with threshold 0.1 and a bottom root margin of -50px:
    for a viewport of height [h] the root rectangle starts at the top edge
    and ends 50 pixels before the bottom edge. *)
Theorem initRevealAnimations_observer w :
  select (dom w) sel_reveal ≠ [] →
  "(prefers-reduced-motion: reduce)" ∉ matchingMedia w →
  let m := mkMargins (Px 0) (Px 0) (Px (-50)) (Px 0) in
  initRevealAnimations w =
    (Normal tt,
     set_observers
       (λ os, os ++ [mkObserver RevealCallback m [0.1%float] (select (dom w) sel_reveal)]) w) ∧
  parse_rootMargin "0px 0px -50px 0px" = Some m ∧
  ∀ h, root_top m h = 0%Z ∧ root_bottom m h = (100 * (h - 50))%Z.
Proof.
  intros Hne Hmedia m. split_and!.
  - by apply initRevealAnimations_run.
  - reflexivity.
  - intros h. subst m. unfold root_top, root_bottom.
    cbn [marginTop marginBottom resolve]. lia.
Qed.

Lemma initRevealAnimations_observer_witness :
  let m := mkMargins (Px 0) (Px 0) (Px (-50)) (Px 0) in
  initRevealAnimations sample_world =
    (Normal tt,
     set_observers
       (λ os, os ++ [mkObserver RevealCallback m [0.1%float]
                                (select (dom sample_world) sel_reveal)]) sample_world) ∧
  parse_rootMargin "0px 0px -50px 0px" = Some m ∧
  ∀ h, root_top m h = 0%Z ∧ root_bottom m h = (100 * (h - 50))%Z.
Proof.
  apply (initRevealAnimations_observer sample_world).
  - by vm_compute.
  - by apply not_elem_of_nil.
Defined.

(** ** The registered observers *)

Lemma deliver_run obs o entries w :
  observers w !! obs = Some o →
  deliver obs entries w = run_callback (callback o) entries w.
Proof. intros Ho. unfold deliver. rewrite bind_run. cbn. by rewrite Ho. Qed.

(** Batches delivered to a registered TOC observer run its callback. *)
Lemma deliver_toc_batches obs o tocLinks batches w :
  observers w !! obs = Some o →
  callback o = TOCCallback tocLinks →
  Forall (is_element w) tocLinks →
  Forall (Forall (λ e, is_element w (target e))) batches →
  forEach (deliver obs) batches w = deliver_all (TOCCallback tocLinks) batches w.
Proof.
  intros Ho Hcb. unfold deliver_all. revert w Ho.
  induction batches as [|b batches IH]; intros w Ho Hlinks Hbatches; [done|].
  apply Forall_cons in Hbatches as [Hb Hbatches].
  rewrite !forEach_cons. erewrite deliver_run by done. rewrite Hcb.
  cbn [run_callback].
  destruct (toc_callback_pass tocLinks b w) as (w1 & Hrun & Hst & _); [done | done |].
  rewrite Hrun. apply IH.
  - destruct Hst as (Hobs & _). by rewrite Hobs.
  - eapply Forall_impl; [done|]. intros l. by apply stable_is_element.
  - eapply Forall_impl; [done|]. intros b' Hb'.
    eapply Forall_impl; [done|]. intros e. by apply stable_is_element.
Qed.

(** The highlighter from initialisation on: on a page with a TOC and some
    heading, after initTOC and any batches for elements of the page that
    contain an intersecting entry, the links of the TOC are in step with the
    heading of the last such entry. *)
Corollary toc_highlighter_on_page w toc batches h :
  find_by_id (dom w) "toc" = Some toc →
  select (dom w) sel_headings ≠ [] →
  Forall (Forall (λ e, is_element w (target e))) batches →
  last_intersecting (concat batches) = Some h →
  ∃ w', (initTOC ;; forEach (deliver (length (observers w))) batches) w = (Normal tt, w') ∧
        ∀ link, link ∈ select_within (dom w) toc sel_anchors →
                in_step (fragment_of w h) w' link.
Proof.
  intros Htoc Hne Hbatches Hlast. rewrite bind_run, (initTOC_run w toc) by done.
  set (links := select_within (dom w) toc sel_anchors).
  set (w1 := set_observers _ w).
  assert (Hlinks : Forall (is_element w1) links) by apply (handles_where_elements _ w).
  erewrite (deliver_toc_batches _ _ links); [| by apply list_lookup_middle | done | done | done].
  rewrite deliver_all_toc.
  destruct (toc_callback_pass links (concat batches) w1) as (w' & Hrun & _ & Hpost).
  { done. }
  { by apply Forall_concat. }
  rewrite Hlast in Hpost. by exists w'.
Qed.

(** The sample page end to end: after both initialisations, a notification
    for heading b to the TOC observer marks the link to #b alone. *)
Example toc_sample_page :
  ∃ w', (initTOC ;; initRevealAnimations ;; deliver 0 [mkEntry 5 true]) sample_world
        = (Normal tt, w') ∧
        callback <$> observers w' = [TOCCallback [1; 2; 3]; RevealCallback] ∧
        targets <$> observers w' = [[4; 5; 6; 8]; [4; 7]] ∧
        (λ n, has_class w' n "active") <$> [1; 2; 3] = [false; true; false] ∧
        (λ n, attr w' n "aria-current") <$> [1; 2; 3] = [None; Some "true"; None].
Proof. eexists. split; [vm_compute; reflexivity|]. by vm_compute. Qed.

(** * Further properties of the script *)

(** ** Updates of one element *)

Lemma updateElement_alter n f w :
  is_element w n → updateElement n f w = (Normal tt, set_dom (alter f n) w).
Proof.
  intros H. apply is_element_lookup in H as [e He].
  erewrite updateElement_run by done. unfold set_dom. do 2 f_equal.
  rewrite list_insert_alter. apply list_alter_ext; [|done].
  intros x Hx. congruence.
Qed.

Lemma is_element_set_dom_alter g n w m :
  is_element (set_dom (alter g n) w) m ↔ is_element w m.
Proof. unfold is_element. cbn. by rewrite length_alter. Qed.

Lemma setAttribute_run n name value w :
  is_element w n → setAttribute n name value w = (Normal tt, set_attr n name value w).
Proof. apply updateElement_alter. Qed.

Lemma classList_add_alter n tok w :
  is_element w n → classList_add n tok w = (Normal tt, set_classes n (token_add tok) w).
Proof. apply updateElement_alter. Qed.

Lemma classList_remove_run n tok w :
  is_element w n → classList_remove n tok w = (Normal tt, set_classes n (token_remove tok) w).
Proof. apply updateElement_alter. Qed.

Lemma getAttribute_run n name w :
  is_element w n → getAttribute n name w = (Normal (attr w n name), w).
Proof.
  intros H. apply is_element_lookup in H as [e He].
  unfold getAttribute, attr. by rewrite bind_run, getElement_run, He.
Qed.

Lemma classList_contains_run n tok w :
  is_element w n → classList_contains n tok w = (Normal (has_class w n tok), w).
Proof.
  intros H. apply is_element_lookup in H as [e He].
  unfold classList_contains, has_class. by rewrite bind_run, getElement_run, He.
Qed.

Lemma is_element_set_attr n name value w m :
  is_element (set_attr n name value w) m ↔ is_element w m.
Proof. apply is_element_set_dom_alter. Qed.

Lemma is_element_set_classes n f w m :
  is_element (set_classes n f w) m ↔ is_element w m.
Proof. apply is_element_set_dom_alter. Qed.

Lemma attr_set_attr n name value w m name' :
  attr (set_attr n name value w) m name' =
  if decide (m = n ∧ name' = name ∧ n < length (dom w)) then Some value else attr w m name'.
Proof.
  unfold attr, set_attr. cbn. rewrite list_lookup_alter.
  destruct (decide (n = m)) as [->|Hne].
  - destruct (dom w !! m) as [e|] eqn:He; cbn.
    + assert (is_element w m) by (apply is_element_lookup; by eexists).
      destruct (decide (name' = name)) as [->|Hn].
      * rewrite decide_True by done. apply lookup_insert_eq.
      * rewrite decide_False by tauto. by apply lookup_insert_ne.
    + rewrite decide_False; [done|]. intros (_ & _ & H).
      apply is_element_lookup in H as [? ?]. congruence.
  - rewrite decide_False; [done|]. intros (-> & _). done.
Qed.

Lemma has_class_set_attr n name value w m tok :
  has_class (set_attr n name value w) m tok = has_class w m tok.
Proof.
  unfold has_class, set_attr. cbn. rewrite list_lookup_alter.
  case_decide as H; [subst|done]. by destruct (dom w !! m).
Qed.

Lemma attr_set_classes n f w m name :
  attr (set_classes n f w) m name = attr w m name.
Proof.
  unfold attr, set_classes. cbn. rewrite list_lookup_alter.
  case_decide as H; [subst|done]. by destruct (dom w !! m).
Qed.

Lemma has_class_set_classes n f w m tok :
  has_class (set_classes n f w) m tok =
  if decide (m = n)
  then match dom w !! n with
       | Some e => bool_decide (tok ∈ f (classList e))
       | None => false
       end
  else has_class w m tok.
Proof.
  unfold has_class, set_classes. cbn. rewrite list_lookup_alter.
  destruct (decide (n = m)) as [->|Hne].
  - rewrite decide_True by done. by destruct (dom w !! m).
  - by rewrite decide_False by done.
Qed.

Lemma has_class_added n tok w m c :
  is_element w n →
  has_class (set_classes n (token_add tok) w) m c =
  if decide (m = n ∧ c = tok) then true else has_class w m c.
Proof.
  intros H. apply is_element_lookup in H. destruct H as [e He].
  rewrite has_class_set_classes. destruct (decide (m = n)) as [->|Hne].
  - rewrite He. unfold has_class. rewrite He. case_decide as Hc.
    + destruct Hc as [_ ->]. apply bool_decide_eq_true, token_add_elem. by left.
    + apply bool_decide_ext. rewrite token_add_elem.
      split; [intros [->|?]; [by destruct Hc | done] | by right].
  - by rewrite decide_False by tauto.
Qed.

Lemma has_class_removed n tok w m c :
  is_element w n →
  has_class (set_classes n (token_remove tok) w) m c =
  if decide (m = n ∧ c = tok) then false else has_class w m c.
Proof.
  intros H. apply is_element_lookup in H. destruct H as [e He].
  rewrite has_class_set_classes. destruct (decide (m = n)) as [->|Hne].
  - rewrite He. unfold has_class. rewrite He. case_decide as Hc.
    + destruct Hc as [_ ->]. apply bool_decide_eq_false. rewrite token_remove_elem. tauto.
    + apply bool_decide_ext. rewrite token_remove_elem.
      split; [by intros [_ ?] | intros ?; split; [intros ->; by destruct Hc | done]].
  - by rewrite decide_False by tauto.
Qed.

(** ** The storage wrapper over the browser's storage *)

Lemma storage_get_host_run key w :
  storage_get host_getItem key w = (Normal (storageArea w ≫= λ items, items !! key), w).
Proof.
  unfold storage_get, try_catch, host_getItem. rewrite bind_run. cbn.
  by destruct (storageArea w).
Qed.

Lemma storage_set_host_run key value w :
  storage_set host_setItem key value w =
  (Normal tt, set_storageArea (fmap (λ items, <[key := value]> items)) w).
Proof.
  unfold storage_set, try_catch, host_setItem. rewrite bind_run. cbn.
  destruct w as [d os media [items|]]; done.
Qed.

(** With storage available, what [storage.set] wrote is what [storage.get]
    reads back, and other keys keep their values; with storage denied the
    read gives null.  The page is not touched either way. *)
Theorem storage_set_then_get key key' value w :
  ∃ w', (storage_set host_setItem key value ;; storage_get host_getItem key') w
        = (Normal match storageArea w with
                  | Some items => if decide (key = key') then Some value else items !! key'
                  | None => None
                  end, w') ∧
        dom w' = dom w ∧ observers w' = observers w ∧
        (storageArea w = None → w' = w).
Proof.
  exists (set_storageArea (fmap (λ items, <[key := value]> items)) w).
  rewrite bind_run, storage_set_host_run, storage_get_host_run.
  split_and!; [|done|done|].
  - f_equal. f_equal. cbn.
    destruct (storageArea w) as [items|]; [|done]. cbn. by rewrite lookup_insert.
  - intros H. destruct w as [d os media area]. cbn in *. by subst.
Qed.

(** ** The theme toggle *)

Lemma data_theme : "data-" +:+ "theme" = "data-theme".
Proof. reflexivity. Qed.

Lemma pressed_for_Some th :
  string_of_bool (bool_decide (Some th = Some "dark")) = string_of_bool (bool_decide (th = "dark")).
Proof. f_equal. apply bool_decide_ext. split; [by intros [= ->] | by intros ->]. Qed.

Lemma updateToggleState_run toggle html w :
  is_element w html →
  (∀ t, toggle = Some t → is_element w t) →
  updateToggleState toggle html w =
  (Normal tt,
   match toggle with
   | Some t => set_attr t "aria-pressed" (pressed_for (attr w html "data-theme")) w
   | None => w
   end).
Proof.
  intros Hhtml Ht. destruct toggle as [t|]; [|done].
  unfold updateToggleState, dataset_get. rewrite data_theme.
  rewrite bind_run, getAttribute_run by done.
  by rewrite setAttribute_run by (by apply Ht).
Qed.

Lemma toggleTheme_run toggle html w :
  is_element w html →
  is_element w toggle →
  let next := next_theme (attr w html "data-theme") in
  toggleTheme toggle html w =
  (Normal tt,
   set_attr toggle "aria-pressed" (pressed_for (Some next))
     (set_storageArea (fmap (λ items, <["theme" := next]> items))
        (set_attr html "data-theme" next w))).
Proof.
  intros Hhtml Ht next. unfold toggleTheme, dataset_get, dataset_set. rewrite data_theme.
  rewrite bind_run, getAttribute_run by done. fold next.
  rewrite bind_run, setAttribute_run by done.
  rewrite bind_run, storage_set_host_run.
  rewrite updateToggleState_run.
  - do 3 f_equal. change (attr (set_storageArea ?f ?v) ?n ?k) with (attr v n k).
    rewrite attr_set_attr, decide_True; done.
  - by apply is_element_set_attr.
  - intros t [= <-]. by apply is_element_set_attr.
Qed.

Lemma toggleTheme_effect toggle html w :
  is_element w html →
  is_element w toggle →
  ∃ w', toggleTheme toggle html w = (Normal tt, w') ∧
        attr w' html "data-theme" = Some (next_theme (attr w html "data-theme")) ∧
        attr w' toggle "aria-pressed"
          = Some (pressed_for (Some (next_theme (attr w html "data-theme")))) ∧
        storageArea w'
          = (λ items, <["theme" := next_theme (attr w html "data-theme")]> items)
              <$> storageArea w ∧
        (∀ n name, name ≠ "data-theme" → name ≠ "aria-pressed" →
                   attr w' n name = attr w n name) ∧
        (∀ n tok, has_class w' n tok = has_class w n tok).
Proof.
  intros Hhtml Ht. eexists. split; [by apply toggleTheme_run|].
  split_and!.
  - rewrite attr_set_attr, decide_False by (intros (_ & [=] & _)).
    change (attr (set_storageArea ?f ?v) ?n ?k) with (attr v n k).
    by rewrite attr_set_attr, decide_True.
  - rewrite attr_set_attr, decide_True; [done|]. split_and!; [done|done|].
    by apply is_element_set_attr.
  - done.
  - intros n name H1 H2. rewrite attr_set_attr, decide_False by tauto.
    change (attr (set_storageArea ?f ?v) ?m ?k) with (attr v m k).
    by rewrite attr_set_attr, decide_False by tauto.
  - intros n tok. rewrite has_class_set_attr.
    change (has_class (set_storageArea ?f ?v) ?m ?k) with (has_class v m k).
    by rewrite has_class_set_attr.
Qed.



Lemma toggleTheme_keeps_elements toggle html w w' n :
  is_element w html → is_element w toggle →
  toggleTheme toggle html w = (Normal tt, w') →
  is_element w n → is_element w' n.
Proof.
  intros Hhtml Ht Hrun Hn. rewrite toggleTheme_run in Hrun by done.
  injection Hrun as <-. by apply is_element_set_attr, is_element_set_attr.
Qed.

Lemma next_theme_twice current :
  next_theme (Some (next_theme current)) =
  if bool_decide (current = Some "dark") then "dark" else "light".
Proof. unfold next_theme. by destruct (bool_decide (current = Some "dark")). Qed.

(** Two clicks on the toggle bring a dark page back to dark and a light one
    back to light, on the page, in aria-pressed and in storage; a page with
    no theme or an unknown one ends up light. *)
Theorem toggleTheme_twice toggle html w :
  is_element w html →
  is_element w toggle →
  let back := if bool_decide (attr w html "data-theme" = Some "dark")
              then "dark" else "light" in
  ∃ w', (toggleTheme toggle html ;; toggleTheme toggle html) w = (Normal tt, w') ∧
        attr w' html "data-theme" = Some back ∧
        attr w' toggle "aria-pressed" = Some (pressed_for (Some back)) ∧
        storageArea w' = (λ items, <["theme" := back]> items) <$> storageArea w.
Proof.
  intros Hhtml Ht back.
  destruct (toggleTheme_effect toggle html w) as (w1 & Hrun1 & Hth1 & _ & Hst1 & _);
    [done | done |].
  destruct (toggleTheme_effect toggle html w1) as (w2 & Hrun2 & Hth2 & Hpr2 & Hst2 & _).
  { by apply (toggleTheme_keeps_elements toggle html w). }
  { by apply (toggleTheme_keeps_elements toggle html w). }
  exists w2. rewrite bind_run, Hrun1. split; [done|].
  rewrite Hth1, next_theme_twice in Hth2, Hpr2, Hst2. fold back in Hth2, Hpr2, Hst2.
  split_and!; [done | done |].
  rewrite Hst2, Hst1. destruct (storageArea w) as [items|]; [|done]. cbn.
  by rewrite insert_insert_eq.
Qed.

Lemma toggleTheme_twice_witness :
  let back := if bool_decide (attr site_world 0 "data-theme" = Some "dark")
              then "dark" else "light" in
  ∃ w', (toggleTheme 1 0 ;; toggleTheme 1 0) site_world = (Normal tt, w') ∧
        attr w' 0 "data-theme" = Some back ∧
        attr w' 1 "aria-pressed" = Some (pressed_for (Some back)) ∧
        storageArea w' = (λ items, <["theme" := back]> items) <$> storageArea site_world.
Proof.
  apply (toggleTheme_twice 1 0 site_world); unfold is_element; cbn; lia.
Defined.

Lemma theme_saved_run w : theme_saved w = (Normal (stored_theme w), w).
Proof. apply storage_get_host_run. Qed.

Lemma theme_system_change_run toggle html e w :
  is_element w html →
  (∀ t, toggle = Some t → is_element w t) →
  let theme := if evMatches e then "dark" else "light" in
  theme_system_change toggle html e w =
  (Normal [],
   if truthy (stored_theme w) then w
   else match toggle with
        | Some t => set_attr t "aria-pressed" (pressed_for (Some theme))
                      (set_attr html "data-theme" theme w)
        | None => set_attr html "data-theme" theme w
        end).
Proof.
  intros Hhtml Ht theme. unfold theme_system_change.
  rewrite bind_run, theme_saved_run. destruct (truthy (stored_theme w)); [done|].
  cbn [negb]. unfold dataset_set. rewrite data_theme.
  rewrite bind_run, setAttribute_run by done. fold theme.
  rewrite bind_run, updateToggleState_run.
  - destruct toggle as [t|]; [|done]. by rewrite attr_set_attr, decide_True.
  - by apply is_element_set_attr.
  - intros t Heq. by apply is_element_set_attr, Ht.
Qed.

(** A change of the system colour scheme is ignored while storage holds a
    theme (other than the empty string); otherwise the page takes the
    system's scheme, dark or light, and aria-pressed follows. *)
Theorem theme_system_change_effect toggle html e w :
  is_element w html →
  is_element w toggle →
  ∃ w', theme_system_change (Some toggle) html e w = (Normal [], w') ∧
        if truthy (stored_theme w) then w' = w
        else attr w' html "data-theme" = Some (if evMatches e then "dark" else "light") ∧
             attr w' toggle "aria-pressed" = Some (string_of_bool (evMatches e)) ∧
             storageArea w' = storageArea w.
Proof.
  intros Hhtml Ht. eexists. split.
  { apply theme_system_change_run; [done|]. by intros t [= <-]. }
  destruct (truthy (stored_theme w)); [done|]. split_and!.
  - rewrite attr_set_attr, decide_False by (intros (_ & [=] & _)).
    by rewrite attr_set_attr, decide_True.
  - rewrite attr_set_attr, decide_True.
    + by destruct (evMatches e).
    + split_and!; [done | done |]. by apply is_element_set_attr.
  - done.
Qed.

Lemma theme_system_change_effect_witness :
  ∃ w', theme_system_change (Some 1) 0 (mkEvent 0 "" true) site_world = (Normal [], w') ∧
        if truthy (stored_theme site_world) then w' = site_world
        else attr w' 0 "data-theme" = Some "dark" ∧
             attr w' 1 "aria-pressed" = Some "true" ∧
             storageArea w' = storageArea site_world.
Proof.
  apply (theme_system_change_effect 1 0 (mkEvent 0 "" true) site_world);
    unfold is_element; cbn; lia.
Defined.

(** With storage available, the theme chosen by a click survives every later
    change of the system colour scheme. *)
Theorem theme_choice_survives_system_change toggle html e w items :
  storageArea w = Some items →
  is_element w html →
  is_element w toggle →
  (toggleTheme toggle html ;; theme_system_change (Some toggle) html e) w
  = (toggleTheme toggle html ;; mret []) w.
Proof.
  intros Harea Hhtml Ht. rewrite !bind_run.
  destruct (toggleTheme_effect toggle html w) as (w1 & Hrun & _ & _ & Hst & _); [done|done|].
  rewrite Hrun. rewrite theme_system_change_run.
  - unfold stored_theme. rewrite Hst, Harea. cbn. rewrite lookup_insert_eq.
    unfold next_theme. by case_bool_decide.
  - by apply (toggleTheme_keeps_elements toggle html w).
  - intros t [= <-]. by apply (toggleTheme_keeps_elements toggle html w).
Qed.

Lemma theme_choice_survives_system_change_witness :
  (toggleTheme 1 0 ;; theme_system_change (Some 1) 0 (mkEvent 0 "" true)) site_world
  = (toggleTheme 1 0 ;; mret []) site_world.
Proof.
  apply (theme_choice_survives_system_change 1 0 _ site_world ∅);
    [reflexivity | unfold is_element; cbn; lia | unfold is_element; cbn; lia].
Defined.

(** With storage denied the choice is not kept: after a click, the next
    change of the system colour scheme sets the theme again. *)
Theorem theme_choice_lost_without_storage toggle html e w :
  storageArea w = None →
  is_element w html →
  is_element w toggle →
  ∃ w', (toggleTheme toggle html ;; theme_system_change (Some toggle) html e) w
        = (Normal [], w') ∧
        attr w' html "data-theme" = Some (if evMatches e then "dark" else "light") ∧
        attr w' toggle "aria-pressed" = Some (string_of_bool (evMatches e)).
Proof.
  intros Harea Hhtml Ht. rewrite bind_run.
  destruct (toggleTheme_effect toggle html w) as (w1 & Hrun & _ & _ & Hst & _); [done|done|].
  rewrite Hrun. eexists. split.
  { apply theme_system_change_run.
    - by apply (toggleTheme_keeps_elements toggle html w).
    - intros t [= <-]. by apply (toggleTheme_keeps_elements toggle html w). }
  assert (His1 : is_element w1 html) by (by apply (toggleTheme_keeps_elements toggle html w)).
  assert (His2 : is_element w1 toggle) by (by apply (toggleTheme_keeps_elements toggle html w)).
  unfold stored_theme. rewrite Hst, Harea. cbn. split.
  - rewrite attr_set_attr, decide_False by (intros (_ & [=] & _)).
    by rewrite attr_set_attr, decide_True.
  - rewrite attr_set_attr, decide_True.
    + by destruct (evMatches e).
    + split_and!; [done | done |]. by apply is_element_set_attr.
Qed.

Lemma theme_choice_lost_without_storage_witness :
  ∃ w', (toggleTheme 1 0 ;; theme_system_change (Some 1) 0 (mkEvent 0 "" false))
          (set_storageArea (λ _, None) site_world)
        = (Normal [], w') ∧
        attr w' 0 "data-theme" = Some "light" ∧
        attr w' 1 "aria-pressed" = Some "false".
Proof.
  apply (theme_choice_lost_without_storage 1 0 (mkEvent 0 "" false)
           (set_storageArea (λ _, None) site_world));
    [reflexivity | unfold is_element; cbn; lia | unfold is_element; cbn; lia].
Defined.

Lemma initTheme_run w :
  is_element w documentElement →
  let toggle := find_by_id (dom w) "theme-toggle" in
  let w1 :=
    if truthy (stored_theme w)
    then set_attr documentElement "data-theme" (default "" (stored_theme w)) w
    else if bool_decide ("(prefers-color-scheme: dark)" ∈ matchingMedia w)
         then set_attr documentElement "data-theme" "dark" w
         else w in
  ∃ ls, initTheme w =
        (Normal ls,
         match toggle with
         | Some t => set_attr t "aria-pressed" (pressed_for (page_theme w1)) w1
         | None => w1
         end) ∧
        length ls = match toggle with Some _ => 3 | None => 1 end.
Proof.
  intros Hhtml toggle w1. unfold initTheme.
  rewrite bind_run, getElementById_run. fold toggle.
  rewrite bind_run, theme_saved_run.
  assert (Htoggle : ∀ t, toggle = Some t → is_element w t).
  { intros t Ht. by apply (find_by_id_element w "theme-toggle"). }
  assert (Hfirst :
    (if truthy (stored_theme w)
     then dataset_set documentElement "theme" (default "" (stored_theme w))
     else dark ← matchMedia_matches "(prefers-color-scheme: dark)";
          if (dark : bool) then dataset_set documentElement "theme" "dark" else skip) w
    = (Normal tt, w1)).
  { unfold w1, dataset_set. rewrite data_theme. destruct (truthy (stored_theme w)).
    - by apply setAttribute_run.
    - rewrite bind_run, matchMedia_matches_run. case_bool_decide; [|done].
      by apply setAttribute_run. }
  rewrite bind_run, Hfirst.
  assert (Hhtml1 : is_element w1 documentElement).
  { unfold w1. repeat case_match; try done; by apply is_element_set_attr. }
  assert (Htoggle1 : ∀ t, toggle = Some t → is_element w1 t).
  { intros t Ht. apply Htoggle in Ht.
    unfold w1. repeat case_match; try done; by apply is_element_set_attr. }
  rewrite bind_run, updateToggleState_run by done.
  eexists. split; [reflexivity|]. by destruct toggle.
Qed.

(** On a page with a root element initTheme returns normally, whatever the
    state of storage.  A stored theme (other than the empty string) becomes
    the theme of the page whatever the system prefers; without one the page
    turns dark if the system prefers dark and otherwise keeps the theme of
    its markup.  The toggle, if there is one, gets aria-pressed to match, and
    storage is not written.  Three listeners are registered with a toggle,
    one without. *)
Theorem initTheme_result w :
  is_element w documentElement →
  ∃ ls w', initTheme w = (Normal ls, w') ∧
    page_theme w' =
      (if truthy (stored_theme w) then stored_theme w
       else if bool_decide ("(prefers-color-scheme: dark)" ∈ matchingMedia w)
            then Some "dark" else page_theme w) ∧
    (∀ t, find_by_id (dom w) "theme-toggle" = Some t →
          attr w' t "aria-pressed" = Some (pressed_for (page_theme w'))) ∧
    storageArea w' = storageArea w ∧
    length ls = match find_by_id (dom w) "theme-toggle" with Some _ => 3 | None => 1 end.
Proof.
  intros Hhtml. destruct (initTheme_run w Hhtml) as (ls & Hrun & Hlen).
  eexists ls, _. split; [exact Hrun|]. clear Hrun.
  set (w1 := if truthy (stored_theme w) then _ else _).
  assert (Hw1 : page_theme w1 =
      (if truthy (stored_theme w) then stored_theme w
       else if bool_decide ("(prefers-color-scheme: dark)" ∈ matchingMedia w)
            then Some "dark" else page_theme w)).
  { unfold w1, page_theme. destruct (truthy (stored_theme w)) eqn:Htr.
    - rewrite attr_set_attr, decide_True by done.
      destruct (stored_theme w); [done | discriminate].
    - case_bool_decide; [|done]. by rewrite attr_set_attr, decide_True. }
  assert (Hel1 : ∀ n, is_element w n → is_element w1 n).
  { intros n Hn. unfold w1. repeat case_match; try done; by apply is_element_set_attr. }
  assert (Hst1 : storageArea w1 = storageArea w).
  { unfold w1. by repeat case_match. }
  destruct (find_by_id (dom w) "theme-toggle") as [t|] eqn:Htoggle.
  - assert (Ht : is_element w1 t) by (by apply Hel1, (find_by_id_element w "theme-toggle")).
    split_and!; [ | | done | done].
    + unfold page_theme in *.
      rewrite attr_set_attr, decide_False by (intros (_ & [=] & _)). done.
    + intros t' [= <-]. rewrite attr_set_attr, decide_True by done.
      unfold page_theme. by rewrite attr_set_attr, decide_False by (intros (_ & [=] & _)).
  - split_and!; [done | by intros t [=] | done | done].
Qed.

Lemma initTheme_result_witness :
  ∃ ls w', initTheme site_world = (Normal ls, w') ∧
    page_theme w' =
      (if truthy (stored_theme site_world) then stored_theme site_world
       else if bool_decide ("(prefers-color-scheme: dark)" ∈ matchingMedia site_world)
            then Some "dark" else page_theme site_world) ∧
    (∀ t, find_by_id (dom site_world) "theme-toggle" = Some t →
          attr w' t "aria-pressed" = Some (pressed_for (page_theme w'))) ∧
    storageArea w' = storageArea site_world ∧
    length ls = match find_by_id (dom site_world) "theme-toggle" with
                | Some _ => 3 | None => 1 end.
Proof.
  apply (initTheme_result site_world). unfold is_element, documentElement. cbn. lia.
Defined.

(** A returning visitor: the stored theme wins over the system's preference. *)
Example initTheme_returning_visitor :
  ∃ ls w', initTheme (mkWorld (dom site_world) [] ["(prefers-color-scheme: dark)"]
                              (Some {[ "theme" := "light" ]})) = (Normal ls, w') ∧
           page_theme w' = Some "light" ∧ attr w' 1 "aria-pressed" = Some "false" ∧
           onType <$> ls = ["click"; "keydown"; "change"].
Proof. eexists _, _. split; [vm_compute; reflexivity|]. by vm_compute. Qed.

(** ** The navigation menu *)

Lemma has_ancestor_parents fuel (d d' : list Element) anc n :
  (∀ m, d' !! m ≫= parentNode = d !! m ≫= parentNode) →
  has_ancestor fuel d' anc n = has_ancestor fuel d anc n.
Proof.
  intros Hpar. revert n. induction fuel as [|fuel IH]; intros n; [done|].
  cbn. rewrite Hpar. destruct (d !! n ≫= parentNode); [|done]. by rewrite IH.
Qed.

Lemma parents_alter (g : Element → Element) (n : nat) (d : list Element) (m : nat) :
  (∀ e, parentNode (g e) = parentNode e) →
  alter g n d !! m ≫= parentNode = d !! m ≫= parentNode.
Proof.
  intros Hg. rewrite list_lookup_alter. case_decide as H; [subst|done].
  destruct (d !! m); [cbn; by rewrite Hg | done].
Qed.

Lemma contains_in_alter (g : Element → Element) n w root other :
  (∀ e, parentNode (g e) = parentNode e) →
  contains_in (set_dom (alter g n) w) root other = contains_in w root other.
Proof.
  intros Hg. unfold contains_in. cbn. rewrite length_alter. f_equal.
  apply has_ancestor_parents. intros m. by apply parents_alter.
Qed.

Lemma element_contains_run root other w :
  is_element w root →
  element_contains root other w = (Normal (contains_in w root other), w).
Proof.
  intros H. apply is_element_lookup in H. destruct H as [e He].
  unfold element_contains. by rewrite bind_run, getElement_run, He.
Qed.

Lemma closeMenu_run toggle links w :
  is_element w toggle → is_element w links →
  closeMenu toggle links w =
  (Normal tt, set_attr toggle "aria-expanded" "false" (set_classes links (token_remove "open") w)).
Proof.
  intros Ht Hl. unfold closeMenu. rewrite bind_run, classList_remove_run by done.
  apply setAttribute_run. by apply is_element_set_classes.
Qed.

Lemma openMenu_run toggle links w :
  is_element w toggle → is_element w links →
  openMenu toggle links w =
  (Normal tt, set_attr toggle "aria-expanded" "true" (set_classes links (token_add "open") w)).
Proof.
  intros Ht Hl. unfold openMenu. rewrite bind_run, classList_add_alter by done.
  apply setAttribute_run. by apply is_element_set_classes.
Qed.

Lemma menu_closed_after toggle links w :
  is_element w toggle → is_element w links →
  menu_closed toggle links
    (set_attr toggle "aria-expanded" "false" (set_classes links (token_remove "open") w)).
Proof.
  intros Ht Hl. split.
  - rewrite has_class_set_attr, has_class_removed by done. by rewrite decide_True.
  - rewrite attr_set_attr, decide_True; [done|].
    split_and!; [done | done |]. by apply is_element_set_classes.
Qed.

Lemma menu_open_after toggle links w :
  is_element w toggle → is_element w links →
  menu_open toggle links
    (set_attr toggle "aria-expanded" "true" (set_classes links (token_add "open") w)).
Proof.
  intros Ht Hl. split.
  - rewrite has_class_set_attr, has_class_added by done. by rewrite decide_True.
  - rewrite attr_set_attr, decide_True; [done|].
    split_and!; [done | done |]. by apply is_element_set_classes.
Qed.

Lemma nav_toggle_click_run toggle links w :
  is_element w toggle → is_element w links →
  nav_toggle_click toggle links w =
  (Normal tt,
   if has_class w links "open"
   then set_attr toggle "aria-expanded" "false" (set_classes links (token_remove "open") w)
   else set_attr toggle "aria-expanded" "true" (set_classes links (token_add "open") w)).
Proof.
  intros Ht Hl. unfold nav_toggle_click.
  rewrite bind_run, classList_contains_run by done.
  destruct (has_class w links "open"); [by apply closeMenu_run | by apply openMenu_run].
Qed.

Lemma nav_document_click_run toggle links e w :
  is_element w toggle → is_element w links →
  nav_document_click toggle links e w =
  (Normal tt,
   if contains_in w toggle (evTarget e) || contains_in w links (evTarget e) then w
   else set_attr toggle "aria-expanded" "false" (set_classes links (token_remove "open") w)).
Proof.
  intros Ht Hl. unfold nav_document_click.
  rewrite bind_run, element_contains_run by done.
  destruct (contains_in w toggle (evTarget e)); [done|]. cbn [negb orb].
  rewrite bind_run, element_contains_run by done.
  destruct (contains_in w links (evTarget e)); [done|]. by apply closeMenu_run.
Qed.

Lemma nav_document_keydown_run toggle links e w :
  is_element w toggle → is_element w links →
  nav_document_keydown toggle links e w =
  if bool_decide (evKey e = "Escape") && has_class w links "open"
  then (Normal [Focus toggle],
        set_attr toggle "aria-expanded" "false" (set_classes links (token_remove "open") w))
  else (Normal [], w).
Proof.
  intros Ht Hl. unfold nav_document_keydown. case_bool_decide; [|done].
  rewrite bind_run, classList_contains_run by done.
  destruct (has_class w links "open"); [|done]. cbn [andb].
  by rewrite bind_run, closeMenu_run.
Qed.

(** A click on the menu button opens a closed menu and closes an open one;
    either way the open class of the link list and the button's
    aria-expanded agree afterwards. *)
Theorem nav_toggle_click_flips toggle links w :
  is_element w toggle →
  is_element w links →
  ∃ w', nav_toggle_click toggle links w = (Normal tt, w') ∧
        if has_class w links "open"
        then menu_closed toggle links w'
        else menu_open toggle links w'.
Proof.
  intros Ht Hl. eexists. split; [by apply nav_toggle_click_run|].
  destruct (has_class w links "open"); [by apply menu_closed_after | by apply menu_open_after].
Qed.

Lemma nav_toggle_click_flips_witness :
  ∃ w', nav_toggle_click 2 4 site_world = (Normal tt, w') ∧
        if has_class site_world 4 "open"
        then menu_closed 2 4 w'
        else menu_open 2 4 w'.
Proof. apply (nav_toggle_click_flips 2 4 site_world); unfold is_element; cbn; lia. Defined.

(** A click on the menu button, or on anything inside it, reaches the
    document's click listener after the button's own: the document's
    listener leaves the menu as the button's listener set it. *)
Theorem nav_click_on_toggle_not_undone toggle links e w :
  is_element w toggle →
  is_element w links →
  contains_in w toggle (evTarget e) = true →
  (nav_toggle_click toggle links ;; nav_document_click toggle links e) w
  = nav_toggle_click toggle links w.
Proof.
  intros Ht Hl Hin. rewrite bind_run, nav_toggle_click_run by done.
  rewrite nav_document_click_run.
  - assert (Hin' : ∀ v f name value,
        contains_in (set_attr toggle name value (set_classes links f v)) toggle (evTarget e)
        = contains_in v toggle (evTarget e)).
    { intros v f name value. unfold set_attr, set_classes. by rewrite !contains_in_alter. }
    destruct (has_class w links "open"); by rewrite Hin', Hin.
  - destruct (has_class w links "open"); by apply is_element_set_attr, is_element_set_classes.
  - destruct (has_class w links "open"); by apply is_element_set_attr, is_element_set_classes.
Qed.

Lemma nav_click_on_toggle_not_undone_witness :
  (nav_toggle_click 2 4 ;; nav_document_click 2 4 (mkEvent 3 "" false)) site_world
  = nav_toggle_click 2 4 site_world.
Proof.
  apply (nav_click_on_toggle_not_undone 2 4 (mkEvent 3 "" false) site_world);
    [unfold is_element; cbn; lia | unfold is_element; cbn; lia | reflexivity].
Defined.

(** A click outside the menu button and outside the link list closes the
    menu, whatever state it was in; a click inside either changes nothing. *)
Theorem nav_click_outside_closes toggle links e w :
  is_element w toggle →
  is_element w links →
  ∃ w', nav_document_click toggle links e w = (Normal tt, w') ∧
        if contains_in w toggle (evTarget e) || contains_in w links (evTarget e)
        then w' = w
        else menu_closed toggle links w'.
Proof.
  intros Ht Hl. eexists. split; [by apply nav_document_click_run|].
  destruct (contains_in w toggle (evTarget e) || contains_in w links (evTarget e)); [done|].
  by apply menu_closed_after.
Qed.

Lemma nav_click_outside_closes_witness :
  ∃ w', nav_document_click 2 4 (mkEvent 7 "" false) site_world = (Normal tt, w') ∧
        if contains_in site_world 2 7 || contains_in site_world 4 7
        then w' = site_world
        else menu_closed 2 4 w'.
Proof.
  apply (nav_click_outside_closes 2 4 (mkEvent 7 "" false) site_world);
    unfold is_element; cbn; lia.
Defined.

(** The Escape key closes an open menu and moves the focus to the menu
    button; with the menu closed, or for any other key, nothing happens and
    the focus stays where it is. *)
Theorem nav_escape_closes toggle links e w :
  is_element w toggle →
  is_element w links →
  ∃ effects w', nav_document_keydown toggle links e w = (Normal effects, w') ∧
        if bool_decide (evKey e = "Escape") && has_class w links "open"
        then menu_closed toggle links w' ∧ effects = [Focus toggle]
        else w' = w ∧ effects = [].
Proof.
  intros Ht Hl. rewrite nav_document_keydown_run by done.
  destruct (bool_decide (evKey e = "Escape") && has_class w links "open").
  - eexists _, _. split; [done|]. split; [by apply menu_closed_after | done].
  - by eexists _, _.
Qed.

Lemma nav_escape_closes_witness :
  ∃ effects w', nav_document_keydown 2 4 (mkEvent 0 "Escape" false) site_world
                = (Normal effects, w') ∧
        if bool_decide ("Escape" = "Escape") && has_class site_world 4 "open"
        then menu_closed 2 4 w' ∧ effects = [Focus 2]
        else w' = site_world ∧ effects = [].
Proof.
  apply (nav_escape_closes 2 4 (mkEvent 0 "Escape" false) site_world);
    unfold is_element; cbn; lia.
Defined.

Lemma nav_handler_keeps_sync toggle links h e w :
  is_element w toggle → is_element w links →
  h ∈ nav_handlers toggle links →
  menu_open toggle links w ∨ menu_closed toggle links w →
  ∃ effects w', run_handler h e w = (Normal effects, w') ∧
     is_element w' toggle ∧ is_element w' links ∧
     (menu_open toggle links w' ∨ menu_closed toggle links w').
Proof.
  intros Ht Hl Hh Hsync.
  assert (Hclosed : ∀ effects,
    ∃ effects' w', (Normal effects,
        set_attr toggle "aria-expanded" "false" (set_classes links (token_remove "open") w))
      = (@Normal (list HostEffect) effects', w') ∧
     is_element w' toggle ∧ is_element w' links ∧
     (menu_open toggle links w' ∨ menu_closed toggle links w')).
  { intros effects. eexists _, _. split; [done|].
    split_and!; [by apply is_element_set_attr, is_element_set_classes
                | by apply is_element_set_attr, is_element_set_classes
                | right; by apply menu_closed_after]. }
  unfold nav_handlers in Hh. split_members Hh; cbn [run_handler].
  - rewrite bind_run, nav_toggle_click_run by done.
    destruct (has_class w links "open"); [apply Hclosed|].
    eexists _, _. split; [done|].
    split_and!; [by apply is_element_set_attr, is_element_set_classes
                | by apply is_element_set_attr, is_element_set_classes
                | left; by apply menu_open_after].
  - rewrite bind_run, nav_document_click_run by done.
    destruct (contains_in w toggle (evTarget e) || contains_in w links (evTarget e));
      [by eexists _, _ | apply Hclosed].
  - rewrite nav_document_keydown_run by done.
    destruct (bool_decide (evKey e = "Escape") && has_class w links "open");
      [apply Hclosed | by eexists _, _].
  - rewrite bind_run, closeMenu_run by done. apply Hclosed.
Qed.

(** Once the open class of the link list and the button's aria-expanded
    agree, they agree after every sequence of clicks and key presses handled
    by the navigation's listeners, and no such handler throws. *)
Theorem nav_menu_stays_in_sync toggle links evs w :
  is_element w toggle →
  is_element w links →
  Forall (λ he, he.1 ∈ nav_handlers toggle links) evs →
  menu_open toggle links w ∨ menu_closed toggle links w →
  ∃ w', run_events evs w = (Normal tt, w') ∧
        (menu_open toggle links w' ∨ menu_closed toggle links w').
Proof.
  intros Ht Hl Hevs Hsync. rewrite Forall_forall in Hevs.
  destruct (forEach_establish
              (λ v, is_element v toggle ∧ is_element v links ∧
                    (menu_open toggle links v ∨ menu_closed toggle links v))
              (λ _ _, True)
              (λ he, run_handler he.1 he.2 ;; skip) evs w) as (w' & Hrun & HI & _).
  - intros he v Hin (Hvt & Hvl & Hvs).
    destruct (nav_handler_keeps_sync toggle links he.1 he.2 v)
      as (effects & v' & Hrun & ? & ? & ?); [done | done | by apply Hevs | done |].
    exists v'. rewrite bind_run, Hrun. by split_and!.
  - done.
  - exists w'. split; [done|]. by destruct HI as (_ & _ & ?).
Qed.

Lemma nav_menu_stays_in_sync_witness :
  ∃ w', run_events [(NavToggleClick 2 4, mkEvent 2 "" false);
                    (NavDocumentClick 2 4, mkEvent 2 "" false);
                    (NavDocumentKeydown 2 4, mkEvent 0 "Escape" false);
                    (NavLinkClick 2 4, mkEvent 5 "" false)]
          (set_attr 2 "aria-expanded" "false" site_world) = (Normal tt, w') ∧
        (menu_open 2 4 w' ∨ menu_closed 2 4 w').
Proof.
  apply (nav_menu_stays_in_sync 2 4 _ (set_attr 2 "aria-expanded" "false" site_world)).
  - unfold is_element. cbn. lia.
  - unfold is_element. cbn. lia.
  - each_item; unfold nav_handlers; cbn; set_solver.
  - right. split; reflexivity.
Defined.

(** initNavigation never changes the page and never throws.  Without the
    menu button or without the link list it registers nothing; with both it
    registers the button's click listener, the document's click and keydown
    listeners, and one closing click listener on every link of the list. *)
Theorem initNavigation_result w :
  ∃ ls, initNavigation w = (Normal ls, w) ∧
    match find_by_id (dom w) "nav-toggle", find_by_id (dom w) "nav-links" with
    | Some t, Some l =>
      ls = [mkListener (OnElement t) "click" (NavToggleClick t l);
            mkListener OnDocument "click" (NavDocumentClick t l);
            mkListener OnDocument "keydown" (NavDocumentKeydown t l)] ++
           ((λ a, mkListener (OnElement a) "click" (NavLinkClick t l))
              <$> select_within (dom w) l sel_anchors)
    | _, _ => ls = []
    end.
Proof.
  unfold initNavigation. rewrite bind_run, getElementById_run.
  rewrite bind_run, getElementById_run.
  destruct (find_by_id (dom w) "nav-toggle") as [t|];
    destruct (find_by_id (dom w) "nav-links") as [l|] eqn:Hl;
    try (by eexists).
  rewrite bind_run, element_querySelectorAll_run by (by eapply find_by_id_element).
  by eexists.
Qed.

(** The navigation of the sample site from initialisation on: a click on
    the button opens the menu, a click on a link of the list closes it. *)
Example nav_sample_site :
  ∃ ls w1 w2,
    initNavigation site_world = (Normal ls, site_world) ∧
    (onTarget <$> ls) = [OnElement 2; OnDocument; OnDocument; OnElement 5; OnElement 6] ∧
    run_events [(NavToggleClick 2 4, mkEvent 3 "" false);
                (NavDocumentClick 2 4, mkEvent 3 "" false)] site_world = (Normal tt, w1) ∧
    has_class w1 4 "open" = true ∧ attr w1 2 "aria-expanded" = Some "true" ∧
    run_events [(NavLinkClick 2 4, mkEvent 5 "" false);
                (NavDocumentClick 2 4, mkEvent 5 "" false)] w1 = (Normal tt, w2) ∧
    has_class w2 4 "open" = false ∧ attr w2 2 "aria-expanded" = Some "false".
Proof.
  eexists _, _, _. split; [vm_compute; reflexivity|]. split; [by vm_compute|].
  split; [vm_compute; reflexivity|]. split; [by vm_compute|]. split; [by vm_compute|].
  split; [vm_compute; reflexivity|]. by vm_compute.
Qed.

(** ** External links *)

Lemma handles_where_ext p q (d d' : list Element) :
  length d' = length d →
  (∀ n, satisfies p d' n = satisfies q d n) →
  handles_where p d' = handles_where q d.
Proof.
  intros Hlen Hsat. unfold handles_where. rewrite Hlen.
  apply list_filter_iff. intros n. by rewrite Hsat.
Qed.

Lemma same_shape_parents d d' m :
  same_shape d d' → d' !! m ≫= parentNode = d !! m ≫= parentNode.
Proof.
  intros [Hlen Hsame]. destruct (d !! m) as [e|] eqn:He.
  - destruct (Hsame m e He) as (e' & -> & _ & Hp & _). cbn. by rewrite Hp.
  - apply lookup_ge_None in He. rewrite <- Hlen in He.
    apply lookup_ge_None in He. by rewrite He.
Qed.

Lemma select_within_class_same_shape d d' root cls :
  same_shape d d' →
  select_within d' root [[SelClass cls]] = select_within d root [[SelClass cls]].
Proof.
  intros Hshape. pose proof Hshape as [Hlen Hsame]. unfold select_within.
  apply handles_where_ext; [done|]. intros n. unfold satisfies. rewrite Hlen.
  rewrite (has_ancestor_parents _ d d') by (intros m; by apply same_shape_parents).
  destruct (d !! n) as [e|] eqn:He.
  - destruct (Hsame n e He) as (e' & -> & _ & _ & Hc). cbn. by rewrite Hc.
  - apply lookup_ge_None in He. rewrite <- Hlen in He.
    apply lookup_ge_None in He. by rewrite He.
Qed.

Lemma mark_external_twice e : mark_external (mark_external e) = mark_external e.
Proof.
  unfold mark_external, with_attributes. cbn. f_equal.
  apply map_eq. intros name. rewrite !lookup_insert. by repeat case_decide.
Qed.

Lemma mark_external_attributes e name :
  attributes (mark_external e) !! name =
  if decide (name = "rel") then Some "noopener noreferrer"
  else if decide (name = "target") then Some "_blank"
  else attributes e !! name.
Proof.
  unfold mark_external. cbn. rewrite !lookup_insert.
  repeat case_decide; congruence.
Qed.

Lemma is_http_anchor_marked e : is_http_anchor (mark_external e) = is_http_anchor e.
Proof. unfold is_http_anchor. by rewrite mark_external_attributes. Qed.

Section ExternalLinksProperties.

Variable url_hostname : string → string.
Variable location_hostname : string.
Variable textContent : nat → string.

#[local] Abbreviation marked :=
  (is_marked_external url_hostname location_hostname textContent).
#[local] Abbreviation marks :=
  (with_external_marks url_hostname location_hostname textContent).

(** Whether a link is marked does not depend on what marking changes. *)
Lemma is_marked_external_same_shape d d' n e e' :
  same_shape d d' →
  tagName e' = tagName e → classList e' = classList e →
  attributes e' !! "href" = attributes e !! "href" →
  marked d' n e' = marked d n e.
Proof.
  intros Hshape Htag Hcls Hhref. unfold is_marked_external, is_http_anchor.
  by rewrite Htag, Hcls, Hhref, (select_within_class_same_shape d d').
Qed.

Lemma external_link_run link v e :
  dom v !! link = Some e →
  is_http_anchor e = true →
  external_link url_hostname location_hostname textContent link v =
  (Normal tt, if marked (dom v) link e then set_dom (alter mark_external link) v else v).
Proof.
  intros He Hanchor.
  assert (Hel : is_element v link) by (apply is_element_lookup; by eexists).
  unfold external_link, is_marked_external. rewrite Hanchor.
  rewrite bind_run, getElement_run, He. cbn [andb].
  case_bool_decide as Hhost; [done|]. cbn [negb andb].
  destruct (bool_decide ("btn" ∈ classList e) || bool_decide ("nav-brand" ∈ classList e));
    [done|]. cbn [negb andb].
  unfold element_querySelector.
  rewrite !bind_run, element_querySelectorAll_run by done. cbn.
  destruct (bool_decide (head (select_within (dom v) link [[SelClass "external-icon"]]) = None)
            && negb (includes "↗" (textContent link))); [|done].
  rewrite bind_run, setAttribute_run by done.
  rewrite setAttribute_run by (by apply is_element_set_attr).
  unfold set_attr, set_dom. cbn. rewrite list_alter_alter_eq. done.
Qed.

Lemma same_shape_marks d : same_shape d (marks d).
Proof.
  split; [apply length_imap|]. intros m e He.
  unfold with_external_marks. rewrite list_lookup_imap, He. cbn.
  eexists. split; [done|]. by destruct (marked d m e).
Qed.

Lemma initExternalLinks_run w :
  initExternalLinks url_hostname location_hostname textContent w =
  (Normal tt, set_dom marks w).
Proof.
  unfold initExternalLinks. rewrite bind_run. cbn.
  set (links := handles_where (λ _ e, is_http_anchor e) (dom w)).
  set (after := λ n e, if marked (dom w) n e then mark_external e else e).
  destruct (forEach_establish
    (λ v, observers v = observers w ∧ matchingMedia v = matchingMedia w ∧
          storageArea v = storageArea w ∧ length (dom v) = length (dom w) ∧
          ∀ m e, dom w !! m = Some e →
                 (m ∉ links → dom v !! m = Some e) ∧
                 (dom v !! m = Some e ∨ dom v !! m = Some (after m e)))
    (λ link v, ∀ e, dom w !! link = Some e → dom v !! link = Some (after link e))
    (external_link url_hostname location_hostname textContent) links w)
    as (w' & Hrun & (Hobs & Hmedia & Harea & Hlen & Hinv) & Hall & _).
  - intros link v Hlink (Hobs & Hmedia & Harea & Hlen & Hinv).
    apply handles_where_elem in Hlink as (e & He & Hanchor).
    assert (Hshape : same_shape (dom w) (dom v)).
    { split; [done|]. intros m em Hem. destruct (Hinv m em Hem) as [_ [Hv|Hv]].
      - by exists em.
      - eexists. split; [done|]. unfold after. by destruct (marked (dom w) m em). }
    destruct (Hinv link e He) as [_ Hv].
    assert (∃ ev, dom v !! link = Some ev ∧ is_http_anchor ev = true ∧
                  marked (dom v) link ev = marked (dom w) link e ∧
                  mark_external ev = mark_external e) as (ev & Hev & Hanchor' & Hmarked & Hmark).
    { destruct Hv as [Hv|Hv]; [exists e | exists (after link e)];
        (split; [done|]).
      - split_and!; [done | | done]. by apply is_marked_external_same_shape.
      - unfold after. destruct (marked (dom w) link e) eqn:Hm.
        + split_and!; [by rewrite is_http_anchor_marked | | by apply mark_external_twice].
          rewrite <- Hm. apply is_marked_external_same_shape; try done.
          by rewrite mark_external_attributes.
        + split_and!; [done | | done]. rewrite <- Hm.
          by apply is_marked_external_same_shape. }
    rewrite (external_link_run link v ev) by done. rewrite Hmarked.
    eexists. split; [done|].
    destruct (marked (dom w) link e) eqn:Hm.
    + cbn. rewrite length_alter. split_and!; try done.
      * intros m em Hem. rewrite list_lookup_alter.
        destruct (decide (link = m)) as [<-|Hne].
        -- assert (em = e) as -> by congruence. rewrite Hev. cbn. rewrite Hmark.
           split; [|right; unfold after; by rewrite Hm].
           intros Hnot. exfalso. apply Hnot. apply handles_where_elem. by exists e.
        -- apply Hinv, Hem.
      * intros e0 He0. assert (e0 = e) as -> by congruence.
        rewrite list_lookup_alter_eq, Hev. cbn. rewrite Hmark. unfold after. by rewrite Hm.
      * intros other Hother e0 He0. rewrite list_lookup_alter.
        destruct (decide (link = other)) as [<-|Hne]; [|by apply Hother].
        assert (e0 = e) as -> by congruence.
        rewrite Hev. cbn. rewrite Hmark. unfold after. by rewrite Hm.
    + split_and!; try done.
      intros e0 He0. assert (e0 = e) as -> by congruence.
      destruct Hv as [Hv|Hv]; [|done]. rewrite Hv. unfold after. by rewrite Hm.
  - split_and!; try done. intros m e He. split; [done | by left].
  - rewrite Hrun. f_equal. destruct w' as [d' os' media' area'], w as [d os media area].
    cbn in *. subst. unfold set_dom. cbn. f_equal.
    apply list_eq. intros m. unfold with_external_marks. rewrite list_lookup_imap.
    destruct (d !! m) as [e|] eqn:He; cbn.
    + destruct (decide (m ∈ links)) as [Hin|Hnot].
      * by apply Hall.
      * destruct (Hinv m e He) as [Hsame _]. rewrite (Hsame Hnot).
        assert (marked d m e = false) as ->; [|done].
        unfold is_marked_external.
        destruct (is_http_anchor e) eqn:Ha; [|done].
        exfalso. apply Hnot. apply handles_where_elem. by exists e.
    + apply lookup_ge_None. rewrite Hlen. by apply lookup_ge_None.
Qed.

Lemma with_external_marks_twice d : marks (marks d) = marks d.
Proof.
  apply list_eq. intros m. unfold with_external_marks at 1.
  rewrite list_lookup_imap. unfold with_external_marks at 2 3.
  rewrite list_lookup_imap. destruct (d !! m) as [e|]; [|done]. cbn. f_equal.
  fold (marks d).
  assert (marked (marks d) m (if marked d m e then mark_external e else e) = marked d m e)
    as ->.
  { apply is_marked_external_same_shape.
    - apply same_shape_marks.
    - by destruct (marked d m e).
    - by destruct (marked d m e).
    - destruct (marked d m e); [|done]. by rewrite mark_external_attributes. }
  destruct (marked d m e) eqn:Hm; [|done]. apply mark_external_twice.
Qed.

End ExternalLinksProperties.

(** initExternalLinks returns normally and marks exactly the links that
    qualify: an anchor whose href starts with http, whose host is not the
    page's own, that is neither a button nor the brand link, and that shows
    no icon or arrow yet, gets target=_blank and rel=noopener noreferrer;
    every other element, a link to the page's own host among them, is left
    as it was. *)
Theorem initExternalLinks_marks_exactly url_hostname location_hostname textContent w :
  ∃ w', initExternalLinks url_hostname location_hostname textContent w = (Normal tt, w') ∧
        length (dom w') = length (dom w) ∧
        observers w' = observers w ∧ storageArea w' = storageArea w ∧
        ∀ n e, dom w !! n = Some e →
          dom w' !! n =
          Some (if is_marked_external url_hostname location_hostname textContent (dom w) n e
                then mark_external e else e).
Proof.
  eexists. split; [apply initExternalLinks_run|]. cbn.
  split_and!; [apply length_imap | done | done |].
  intros n e He. unfold with_external_marks. by rewrite list_lookup_imap, He.
Qed.

(** initExternalLinks touches nothing but the target and rel attributes, and
    an element whose target or rel it changed ends up with both
    target=_blank and rel=noopener noreferrer: it never makes a link open a
    new window without cutting the opener. *)
Theorem initExternalLinks_opens_safely url_hostname location_hostname textContent w :
  ∃ w', initExternalLinks url_hostname location_hostname textContent w = (Normal tt, w') ∧
        (∀ n tok, has_class w' n tok = has_class w n tok) ∧
        (∀ n name, name ≠ "target" → name ≠ "rel" → attr w' n name = attr w n name) ∧
        ∀ n, attr w' n "target" ≠ attr w n "target" ∨ attr w' n "rel" ≠ attr w n "rel" →
             attr w' n "target" = Some "_blank" ∧
             attr w' n "rel" = Some "noopener noreferrer".
Proof.
  eexists. split; [apply initExternalLinks_run|].
  assert (Hlook : ∀ n, dom (set_dom (with_external_marks url_hostname location_hostname
                                        textContent) w) !! n =
      (λ e, if is_marked_external url_hostname location_hostname textContent (dom w) n e
            then mark_external e else e) <$> dom w !! n).
  { intros n. cbn. unfold with_external_marks. by rewrite list_lookup_imap. }
  split_and!.
  - intros n tok. unfold has_class. rewrite Hlook.
    destruct (dom w !! n) as [e|]; [|done]. cbn. by case_match.
  - intros n name H1 H2. unfold attr. rewrite Hlook.
    destruct (dom w !! n) as [e|]; [|done]. cbn. case_match; [|done].
    rewrite mark_external_attributes. by rewrite !decide_False by done.
  - intros n. unfold attr. rewrite Hlook.
    destruct (dom w !! n) as [e|]; cbn; [|by intros [[]|[]]].
    case_match; [|by intros [[]|[]]]. intros _.
    by rewrite !mark_external_attributes.
Qed.

(** Running initExternalLinks a second time changes nothing more. *)
Theorem initExternalLinks_idempotent url_hostname location_hostname textContent w :
  (initExternalLinks url_hostname location_hostname textContent ;;
   initExternalLinks url_hostname location_hostname textContent) w
  = initExternalLinks url_hostname location_hostname textContent w.
Proof.
  rewrite bind_run, !initExternalLinks_run. f_equal.
  unfold set_dom. cbn. f_equal. apply with_external_marks_twice.
Qed.

(** On the sample site, with example.org and own.example as hosts: the
    plain external link is marked, the button and the page's own link are
    not. *)
Example external_links_sample_site :
  let hostname href := if String.prefix "https://own.example" href
                       then "own.example" else "example.org" in
  ∃ w', initExternalLinks hostname "own.example" (λ _, "Docs") site_world = (Normal tt, w') ∧
        (λ n, attr w' n "target") <$> [5; 6; 8] = [Some "_blank"; None; None] ∧
        (λ n, attr w' n "rel") <$> [5; 6; 8] = [Some "noopener noreferrer"; None; None].
Proof. eexists. split; [vm_compute; reflexivity|]. by vm_compute. Qed.

(** ** More on reveal on scroll *)

Lemma set_classes_commute t1 t2 f w :
  set_classes t1 f (set_classes t2 f w) = set_classes t2 f (set_classes t1 f w).
Proof.
  unfold set_classes, set_dom. cbn. f_equal.
  destruct (decide (t1 = t2)) as [->|Hne]; [done|]. by apply list_alter_alter_ne.
Qed.

Lemma token_add_twice tok toks : token_add tok (token_add tok toks) = token_add tok toks.
Proof.
  unfold token_add at 1. rewrite bool_decide_eq_true_2; [done|].
  apply token_add_elem. by left.
Qed.

Lemma set_classes_add_twice t tok w :
  set_classes t (token_add tok) (set_classes t (token_add tok) w)
  = set_classes t (token_add tok) w.
Proof.
  unfold set_classes, set_dom. cbn. f_equal. rewrite list_alter_alter_eq.
  apply list_alter_ext; [|done]. intros e _. unfold with_classList. cbn.
  by rewrite token_add_twice.
Qed.

Lemma mark_visible_cons t ts w :
  mark_visible (t :: ts) w = mark_visible ts (set_classes t (token_add "visible") w).
Proof. reflexivity. Qed.

Lemma mark_visible_commute t ts w :
  set_classes t (token_add "visible") (mark_visible ts w)
  = mark_visible ts (set_classes t (token_add "visible") w).
Proof.
  revert w. induction ts as [|t' ts IH]; intros w; [done|].
  rewrite !mark_visible_cons, IH. by rewrite set_classes_commute.
Qed.

Lemma mark_visible_permutation ts ts' w :
  ts ≡ₚ ts' → mark_visible ts w = mark_visible ts' w.
Proof.
  intros Hperm. revert w. induction Hperm as [|t ts ts' _ IH|t1 t2 ts|ts1 ts2 ts3 _ IH1 _ IH2];
    intros w.
  - done.
  - rewrite !mark_visible_cons. apply IH.
  - rewrite !mark_visible_cons. by rewrite set_classes_commute.
  - by rewrite IH1.
Qed.

Lemma mark_visible_twice ts w : mark_visible ts (mark_visible ts w) = mark_visible ts w.
Proof.
  revert w. induction ts as [|t ts IH]; intros w; [done|].
  rewrite !mark_visible_cons, mark_visible_commute, set_classes_add_twice. apply IH.
Qed.

Lemma mark_visible_elements ts w n : is_element (mark_visible ts w) n ↔ is_element w n.
Proof.
  revert w. induction ts as [|t ts IH]; intros w; [done|].
  rewrite mark_visible_cons, IH. apply is_element_set_classes.
Qed.

Lemma revealed_cons e entries :
  revealed (e :: entries) = if isIntersecting e then target e :: revealed entries
                            else revealed entries.
Proof.
  unfold revealed. rewrite filter_cons. case_decide as H.
  - by rewrite H.
  - by destruct (isIntersecting e).
Qed.

Lemma reveal_callback_run entries w :
  Forall (λ e, is_element w (target e)) entries →
  reveal_callback entries w = (Normal tt, mark_visible (revealed entries) w).
Proof.
  unfold reveal_callback. revert w.
  induction entries as [|e entries IH]; intros w Hvalid; [done|].
  apply Forall_cons in Hvalid as [He Hvalid].
  rewrite forEach_cons, revealed_cons. unfold reveal_entry at 1.
  destruct (isIntersecting e).
  - rewrite classList_add_alter by done. rewrite mark_visible_cons. apply IH.
    eapply Forall_impl; [done|]. intros e' He'. by apply is_element_set_classes.
  - by apply IH.
Qed.

(** The reveal callback does not depend on the order in which the host
    lists the entries of a batch: two batches with the same entries leave
    the same page. *)
Theorem reveal_order_independent entries entries' w :
  entries ≡ₚ entries' →
  Forall (λ e, is_element w (target e)) entries →
  reveal_callback entries w = reveal_callback entries' w.
Proof.
  intros Hperm Hvalid.
  rewrite !reveal_callback_run by (by rewrite <- ?Hperm).
  f_equal. apply mark_visible_permutation. unfold revealed. by rewrite Hperm.
Qed.

Lemma reveal_order_independent_witness :
  reveal_callback [mkEntry 4 true; mkEntry 7 true; mkEntry 4 false] sample_world
  = reveal_callback [mkEntry 4 false; mkEntry 7 true; mkEntry 4 true] sample_world.
Proof.
  apply (reveal_order_independent _ _ sample_world).
  - apply (Permutation_rev [mkEntry 4 true; mkEntry 7 true; mkEntry 4 false]).
  - each_item; unfold is_element; cbn; lia.
Defined.

(** Delivering the same batch to the reveal callback a second time changes
    nothing more. *)
Theorem reveal_idempotent entries w :
  Forall (λ e, is_element w (target e)) entries →
  (reveal_callback entries ;; reveal_callback entries) w = reveal_callback entries w.
Proof.
  intros Hvalid. rewrite bind_run, reveal_callback_run by done.
  rewrite reveal_callback_run.
  - by rewrite mark_visible_twice.
  - eapply Forall_impl; [done|]. intros e He. by apply mark_visible_elements.
Qed.

Lemma reveal_idempotent_witness :
  (reveal_callback [mkEntry 4 true; mkEntry 7 true; mkEntry 4 false] ;;
   reveal_callback [mkEntry 4 true; mkEntry 7 true; mkEntry 4 false]) sample_world
  = reveal_callback [mkEntry 4 true; mkEntry 7 true; mkEntry 4 false] sample_world.
Proof.
  apply (reveal_idempotent _ sample_world). each_item; unfold is_element; cbn; lia.
Defined.

Lemma mark_visible_classes ts w n c :
  Forall (is_element w) ts →
  has_class (mark_visible ts w) n c = true ↔
  has_class w n c = true ∨ (c = "visible" ∧ n ∈ ts).
Proof.
  revert w. induction ts as [|t ts IH]; intros w Hvalid.
  - cbn. split; [by left | intros [?|[_ H]]; [done | by apply elem_of_nil in H]].
  - apply Forall_cons in Hvalid as [Ht Hvalid].
    rewrite mark_visible_cons, IH.
    + rewrite has_class_added by done. rewrite elem_of_cons.
      case_decide as Hd.
      * destruct Hd as [-> ->]. split; intros _; [right; split; [done | by left] | by left].
      * split.
        -- intros [?|[? ?]]; [by left | right; split; [done | by right]].
        -- intros [?|[-> [->|?]]]; [by left | by destruct Hd | by right].
    + eapply Forall_impl; [done|]. intros m Hm. by apply is_element_set_classes.
Qed.

Lemma mark_visible_attr ts w n name : attr (mark_visible ts w) n name = attr w n name.
Proof.
  revert w. induction ts as [|t ts IH]; intros w; [done|].
  by rewrite mark_visible_cons, IH, attr_set_classes.
Qed.

Lemma mark_visible_rest ts w :
  observers (mark_visible ts w) = observers w ∧
  storageArea (mark_visible ts w) = storageArea w.
Proof.
  revert w. induction ts as [|t ts IH]; intros w; [done|].
  rewrite mark_visible_cons. apply (IH (set_classes t (token_add "visible") w)).
Qed.

(** The reveal callback adds the visible class to the targets of the
    intersecting entries and does nothing else: afterwards an element has a
    class exactly if it had it before or the class is visible and the
    element is such a target, and every attribute is as it was. *)
Theorem reveal_adds_visible_only entries w :
  Forall (λ e, is_element w (target e)) entries →
  ∃ w', reveal_callback entries w = (Normal tt, w') ∧
        (∀ n c, has_class w' n c = true ↔
                has_class w n c = true ∨ (c = "visible" ∧ n ∈ revealed entries)) ∧
        (∀ n name, attr w' n name = attr w n name) ∧
        observers w' = observers w ∧ storageArea w' = storageArea w.
Proof.
  intros Hvalid. eexists. split; [by apply reveal_callback_run|]. split_and!.
  - intros n c. apply mark_visible_classes. unfold revealed.
    apply Forall_fmap, Forall_forall. intros e He.
    apply list_elem_of_filter in He as [_ He].
    rewrite Forall_forall in Hvalid. by apply Hvalid.
  - intros n name. apply mark_visible_attr.
  - apply mark_visible_rest.
  - apply mark_visible_rest.
Qed.

Lemma reveal_adds_visible_only_witness :
  ∃ w', reveal_callback [mkEntry 4 true; mkEntry 7 false] sample_world = (Normal tt, w') ∧
        (∀ n c, has_class w' n c = true ↔
                has_class sample_world n c = true ∨
                (c = "visible" ∧ n ∈ revealed [mkEntry 4 true; mkEntry 7 false])) ∧
        (∀ n name, attr w' n name = attr sample_world n name) ∧
        observers w' = observers sample_world ∧ storageArea w' = storageArea sample_world.
Proof.
  apply (reveal_adds_visible_only _ sample_world). each_item; unfold is_element; cbn; lia.
Defined.

(** ** What the TOC callback leaves alone *)

Lemma link_after_other_class frag e tok :
  tok ≠ "active" → tok ∈ classList (link_after frag e) ↔ tok ∈ classList e.
Proof.
  intros Hne. unfold link_after. case_bool_decide; cbn.
  - rewrite token_add_elem. split; [by intros [?|?] | by right].
  - rewrite token_remove_elem. split; [by intros [_ ?] | done].
Qed.

Lemma toc_links_pass_frame tocLinks entry w v :
  Forall (is_element w) tocLinks →
  is_element w (target entry) →
  stable w v →
  (∀ n, n ∉ tocLinks → dom v !! n = dom w !! n) →
  (∀ n tok, tok ≠ "active" → has_class v n tok = has_class w n tok) →
  ∃ v', forEach (toc_update_link entry) tocLinks v = (Normal tt, v') ∧
        stable w v' ∧
        (∀ n, n ∉ tocLinks → dom v' !! n = dom w !! n) ∧
        (∀ n tok, tok ≠ "active" → has_class v' n tok = has_class w n tok).
Proof.
  intros Hlinks Htarget Hst Hout Hcls. rewrite Forall_forall in Hlinks.
  destruct (forEach_establish
    (λ u, stable w u ∧ (∀ n, n ∉ tocLinks → dom u !! n = dom w !! n) ∧
          (∀ n tok, tok ≠ "active" → has_class u n tok = has_class w n tok))
    (λ _ _, True) (toc_update_link entry) tocLinks v) as (v' & Hrun & HI & _).
  - intros link u Hlink (Hstu & Houtu & Hclsu).
    destruct (proj1 (is_element_lookup u link)) as [e He].
    { eapply stable_is_element; eauto. }
    destruct (proj1 (is_element_lookup u (target entry))) as [t Ht].
    { eapply stable_is_element; eauto. }
    eexists. split; [by eapply toc_update_link_run|]. split_and!; [ | | | done | done].
    + eapply stable_trans; [done|]. eapply stable_replace; [done|].
      intros name Hname. by apply link_after_attributes.
    + intros n Hn. cbn. rewrite list_lookup_insert_ne; [by apply Houtu|].
      intros ->. done.
    + intros n tok Htok. rewrite has_class_replace. case_decide as Hd; [|by apply Hclsu].
      destruct Hd as [-> _]. rewrite <- Hclsu by done. unfold has_class. rewrite He.
      apply bool_decide_ext. by apply link_after_other_class.
  - done.
  - by exists v'.
Qed.

(** The TOC callback changes nothing but the active class and the
    aria-current attribute of the TOC links: every other element is left as
    it was, every other class and attribute of every element too, and so
    are the observers and storage. *)
Theorem toc_callback_touches_links_only tocLinks entries w :
  Forall (is_element w) tocLinks →
  Forall (λ e, is_element w (target e)) entries →
  ∃ w', toc_callback tocLinks entries w = (Normal tt, w') ∧
        (∀ n, n ∉ tocLinks → dom w' !! n = dom w !! n) ∧
        (∀ n tok, tok ≠ "active" → has_class w' n tok = has_class w n tok) ∧
        (∀ n name, name ≠ "aria-current" → attr w' n name = attr w n name) ∧
        observers w' = observers w ∧ storageArea w' = storageArea w.
Proof.
  intros Hlinks Htargets. rewrite Forall_forall in Htargets.
  destruct (forEach_establish
    (λ u, stable w u ∧ (∀ n, n ∉ tocLinks → dom u !! n = dom w !! n) ∧
          (∀ n tok, tok ≠ "active" → has_class u n tok = has_class w n tok))
    (λ _ _, True) (toc_entry tocLinks) entries w) as (w' & Hrun & (Hst & Hout & Hcls) & _).
  - intros entry u Hentry (Hstu & Houtu & Hclsu). unfold toc_entry.
    destruct (isIntersecting entry).
    + destruct (toc_links_pass_frame tocLinks entry w u) as (u' & Hrun & ? & ? & ?);
        [done | by apply Htargets | done | done | done |].
      exists u'. by split_and!.
    + exists u. by split_and!.
  - split_and!; [apply stable_refl | done | done].
  - exists w'. destruct Hst as (Hobs & _ & Harea & _ & Hattr). by split_and!.
Qed.

Lemma toc_callback_touches_links_only_witness :
  ∃ w', toc_callback [1; 2; 3] [mkEntry 5 true; mkEntry 8 true] sample_world = (Normal tt, w') ∧
        (∀ n, n ∉ [1; 2; 3] → dom w' !! n = dom sample_world !! n) ∧
        (∀ n tok, tok ≠ "active" → has_class w' n tok = has_class sample_world n tok) ∧
        (∀ n name, name ≠ "aria-current" → attr w' n name = attr sample_world n name) ∧
        observers w' = observers sample_world ∧ storageArea w' = storageArea sample_world.
Proof.
  apply (toc_callback_touches_links_only [1; 2; 3] _ sample_world).
  - solve_elements.
  - each_item; unfold is_element; cbn; lia.
Defined.

(** ** The observers' initialisation on any page *)

Lemma initTOC_noop w :
  find_by_id (dom w) "toc" = None ∨ select (dom w) sel_headings = [] →
  initTOC w = (Normal tt, w).
Proof.
  intros H. unfold initTOC. rewrite bind_run, getElementById_run.
  destruct (find_by_id (dom w) "toc") as [toc|] eqn:Htoc; [|done].
  destruct H as [H|H]; [done|].
  rewrite bind_run, document_querySelectorAll_run, H.
  by rewrite bind_run, element_querySelectorAll_run by (by eapply find_by_id_element).
Qed.

(** initTOC returns normally on every page and never changes an element,
    the media or storage; it adds one observer when the page has both a TOC
    container and a heading, and none otherwise. *)
Theorem initTOC_on_any_page w :
  ∃ w', initTOC w = (Normal tt, w') ∧
        dom w' = dom w ∧ matchingMedia w' = matchingMedia w ∧
        storageArea w' = storageArea w ∧
        length (observers w') =
          length (observers w) +
          match find_by_id (dom w) "toc", select (dom w) sel_headings with
          | Some _, _ :: _ => 1
          | _, _ => 0
          end.
Proof.
  destruct (find_by_id (dom w) "toc") as [toc|] eqn:Htoc.
  - destruct (select (dom w) sel_headings) as [|h hs] eqn:Hh.
    + exists w. rewrite initTOC_noop by (by right). split_and!; try done; lia.
    + eexists. rewrite (initTOC_run w toc) by (done || by rewrite Hh).
      split_and!; try done. cbn. by rewrite length_app.
  - exists w. rewrite initTOC_noop by (by left). split_and!; try done; cbn; lia.
Qed.

(** initRevealAnimations returns normally on every page; without a
    revealable element it changes nothing at all, and in every case it
    leaves all attributes as they were and removes no class. *)
Theorem initRevealAnimations_on_any_page w :
  ∃ w', initRevealAnimations w = (Normal tt, w') ∧
        (select (dom w) sel_reveal = [] → w' = w) ∧
        (∀ n name, attr w' n name = attr w n name) ∧
        (∀ n c, has_class w n c = true → has_class w' n c = true) ∧
        storageArea w' = storageArea w.
Proof.
  destruct (select (dom w) sel_reveal) as [|el els] eqn:Hsel.
  - exists w. split; [|done]. unfold initRevealAnimations.
    by rewrite bind_run, document_querySelectorAll_run, Hsel.
  - destruct (decide ("(prefers-reduced-motion: reduce)" ∈ matchingMedia w)) as [Hred|Hred].
    + unfold initRevealAnimations.
      rewrite bind_run, document_querySelectorAll_run, Hsel.
      change (bool_decide (length (el :: els) = 0)) with false. cbv iota.
      rewrite bind_run, matchMedia_matches_run, bool_decide_eq_true_2 by done.
      rewrite <- Hsel.
      pose proof (handles_where_elements (λ _ e, matches_selector sel_reveal e) w) as Hvalid.
      fold (select (dom w) sel_reveal) in Hvalid. revert Hvalid.
      generalize (select (dom w) sel_reveal). intros ts Hvalid.
      assert (Hloop : ∀ v, Forall (is_element v) ts →
        forEach (λ el, classList_add el "visible") ts v = (Normal tt, mark_visible ts v)).
      { clear. induction ts as [|t ts IH]; intros v Hv; [done|].
        apply Forall_cons in Hv as [Ht Hv].
        rewrite forEach_cons, classList_add_alter by done. rewrite mark_visible_cons.
        apply IH. eapply Forall_impl; [done|]. intros m Hm. by apply is_element_set_classes. }
      eexists. split; [by apply Hloop|]. split_and!.
      * discriminate || (intros ->; done).
      * intros n name. apply mark_visible_attr.
      * intros n c Hc. apply mark_visible_classes; [done | by left].
      * apply mark_visible_rest.
    + eexists. rewrite initRevealAnimations_run by (done || by rewrite Hsel).
      split_and!; done.
Qed.

(** ** The observers from initialisation on *)

Lemma toc_highlighter_on_page_witness :
  ∃ w', (initTOC ;; forEach (deliver (length (observers sample_world)))
                      [[mkEntry 4 true; mkEntry 5 true]; [mkEntry 6 false]]) sample_world
        = (Normal tt, w') ∧
        ∀ link, link ∈ select_within (dom sample_world) 0 sel_anchors →
                in_step (fragment_of sample_world 5) w' link.
Proof.
  apply (toc_highlighter_on_page sample_world 0 _ 5).
  - reflexivity.
  - by vm_compute.
  - each_item; unfold is_element; cbn; lia.
  - reflexivity.
Defined.

Lemma deliver_reveal_batches obs o batches w :
  observers w !! obs = Some o →
  callback o = RevealCallback →
  Forall (Forall (λ e, is_element w (target e))) batches →
  forEach (deliver obs) batches w = reveal_callback (concat batches) w.
Proof.
  intros Ho Hcb. revert w Ho.
  induction batches as [|b batches IH]; intros w Ho Hbatches; [done|].
  apply Forall_cons in Hbatches as [Hb Hbatches].
  rewrite forEach_cons. erewrite deliver_run by done. rewrite Hcb. cbn [run_callback concat].
  unfold reveal_callback at 2. rewrite forEach_app. fold (reveal_callback b).
  rewrite reveal_callback_run by done. apply IH.
  - by rewrite (proj1 (mark_visible_rest _ _)).
  - eapply Forall_impl; [done|]. intros b' Hb'.
    eapply Forall_impl; [done|]. intros e He. by apply mark_visible_elements.
Qed.

(** Reveal on scroll from initialisation on: on a page with a revealable
    element and no reduced-motion preference, after initRevealAnimations
    and any batches delivered to the observer it registered, an element
    carries the visible class exactly if it did before or it was the target
    of an intersecting entry. *)
Theorem reveal_on_page w batches :
  select (dom w) sel_reveal ≠ [] →
  "(prefers-reduced-motion: reduce)" ∉ matchingMedia w →
  Forall (Forall (λ e, is_element w (target e))) batches →
  ∃ w', (initRevealAnimations ;; forEach (deliver (length (observers w))) batches) w
        = (Normal tt, w') ∧
        ∀ n, has_class w' n "visible" = true ↔
             has_class w n "visible" = true ∨ n ∈ revealed (concat batches).
Proof.
  intros Hne Hmedia Hbatches. rewrite bind_run, initRevealAnimations_run by done.
  set (w1 := set_observers _ w).
  erewrite (deliver_reveal_batches _ _ batches w1);
    [| by apply list_lookup_middle | done | done].
  assert (Hvalid : Forall (λ e, is_element w1 (target e)) (concat batches))
    by (by apply Forall_concat).
  rewrite reveal_callback_run by done. eexists. split; [done|].
  intros n. rewrite mark_visible_classes.
  - change (has_class w1 n "visible") with (has_class w n "visible").
    split; [intros [?|[_ ?]]; [by left | by right] | intros [?|?]; [by left | by right]].
  - unfold revealed. apply Forall_fmap, Forall_forall. intros e He.
    apply list_elem_of_filter in He as [_ He].
    rewrite Forall_forall in Hvalid. by apply Hvalid.
Qed.

Lemma reveal_on_page_witness :
  ∃ w', (initRevealAnimations ;;
         forEach (deliver (length (observers sample_world)))
           [[mkEntry 4 true]; [mkEntry 4 false; mkEntry 7 true]]) sample_world
        = (Normal tt, w') ∧
        ∀ n, has_class w' n "visible" = true ↔
             has_class sample_world n "visible" = true ∨
             n ∈ revealed (concat [[mkEntry 4 true]; [mkEntry 4 false; mkEntry 7 true]]).
Proof.
  apply (reveal_on_page sample_world).
  - by vm_compute.
  - by apply not_elem_of_nil.
  - each_item; unfold is_element; cbn; lia.
Defined.
